(** * PICs_Manager: the scan pipeline and its task supervisor

    A shallow embedding of the Go sources of the repository:

    - [internal/task/manager.go]            (module [TaskManager])
    - [pkg/scanner/aggregator.go]           (modules [Changelog], [Aggregator])
    - [pkg/scanner/preprocessor.go]         (module [Preprocessor])
    - [pkg/scanner/ingestor.go]             (module [Ingestor])

    Go maps are [gmap]s, Go strings are sequences of code points, the file
    system is a finite map from paths to nodes, and whatever the Go code takes
    from outside the repository (the Unicode tables, the transliteration
    library, regular expressions, image codecs, hashes, the clock) is a field
    of an environment record. *)

From stdpp Require Import gmap strings list sorting pretty.
From Stdlib Require Import ZArith Lia.

Set Warnings "-clear-no-such-hyp".
Open Scope Z_scope.

(** ** The task supervisor ([internal/task/manager.go]) *)

Module TaskManager.

Inductive TaskStatus :=
| StatusPending
| StatusRunning
| StatusCompleted
| StatusFailed.

#[global] Instance TaskStatus_eq_dec : EqDecision TaskStatus.
Proof. solve_decision. Defined.

(** [Progress] is a [float64] in Go; the code only ever stores 0, 50 and 100. *)
Record Task := mkTask {
  ID : string;
  Status : TaskStatus;
  Progress : Z;
  Error : string;
  StartTime : Z;
  EndTime : option Z;
  scanPath : string;
}.

(** [m.tasks] is a [map[string]*Task]: the map holds pointers, and the
    goroutine started for a task keeps mutating the [Task] it was given.  The
    [Task] objects live in [heap]; a pointer is an index into it. *)
Record Manager := mkManager {
  heap : list Task;
  tasks : gmap string nat;
}.

Definition NewManager : Manager := mkManager [] ∅.

Inductive StartError :=
| ErrScanInProgress (runningID : string).

(** The tasks reachable from [m.tasks], in the order the [range] visits them. *)
Definition rangeTasks (m : Manager) : list Task :=
  omap (λ kv, heap m !! kv.2) (map_to_list (tasks m)).

Definition isRunning (t : Task) : bool :=
  bool_decide (Status t = StatusRunning).

(** [StartNewScanTask], the part run under [m.mu]: [uuid] is the value drawn by
    [uuid.New()], [now] the one read by [time.Now()].  The result is the new
    manager, the returned pair, and the pointer handed to [go m.runScan]. *)
Definition StartNewScanTask (uuid : string) (now : Z) (path : string) (m : Manager)
  : Manager * (string + StartError) * option nat :=
  match List.find isRunning (rangeTasks m) with
  | Some task => (m, inr (ErrScanInProgress (ID task)), None)
  | None =>
      let newTask := mkTask uuid StatusPending 0 "" now None path in
      let ptr := length (heap m) in
      (mkManager (heap m ++ [newTask]) (<[uuid := ptr]> (tasks m)), inl uuid, Some ptr)
  end.

Definition GetTaskStatus (taskID : string) (m : Manager) : option Task :=
  tasks m !! taskID ≫= λ ptr, heap m !! ptr.

(** [runScan] holds [m.mu] three times: to set [Status = StatusRunning], to
    set [Progress = 50], and, once [RunFullScan] has returned, to mark the
    task completed.  A goroutine is the task pointer and the number of
    critical sections it has been through. *)
Record Goroutine := mkGoroutine {
  gTask : nat;
  gPc : nat;
}.

Definition updTask (ptr : nat) (f : Task → Task) (m : Manager) : Manager :=
  mkManager (alter f ptr (heap m)) (tasks m).

Definition setRunning (t : Task) : Task :=
  mkTask (ID t) StatusRunning (Progress t) (Error t) (StartTime t) (EndTime t) (scanPath t).

Definition setProgress (p : Z) (t : Task) : Task :=
  mkTask (ID t) (Status t) p (Error t) (StartTime t) (EndTime t) (scanPath t).

Definition setCompleted (now : Z) (t : Task) : Task :=
  mkTask (ID t) StatusCompleted 100 (Error t) (StartTime t) (Some now) (scanPath t).

Definition runScanStep (now : Z) (g : Goroutine) (m : Manager) : Goroutine * Manager :=
  match gPc g with
  | 0%nat => (mkGoroutine (gTask g) 1, updTask (gTask g) setRunning m)
  | 1%nat => (mkGoroutine (gTask g) 2, updTask (gTask g) (setProgress 50) m)
  | 2%nat => (mkGoroutine (gTask g) 3, updTask (gTask g) (setCompleted now) m)
  | _ => (g, m)
  end.

(** The process: the manager and the goroutines started so far.  Every
    critical section is atomic (it runs under [m.mu]), so a run of the process
    is a sequence of actions: a caller starting a scan, or one goroutine going
    through its next critical section. *)
Record Process := mkProcess {
  mgr : Manager;
  goroutines : list Goroutine;
  replies : list (string + StartError);
}.

Inductive Action :=
| CallStart (uuid : string) (now : Z) (path : string)
| Advance (g : nat) (now : Z).

Definition step (a : Action) (p : Process) : Process :=
  match a with
  | CallStart uuid now path =>
      let '(m, reply, spawned) := StartNewScanTask uuid now path (mgr p) in
      mkProcess m
        (goroutines p ++ match spawned with Some ptr => [mkGoroutine ptr 0] | None => [] end)
        (replies p ++ [reply])
  | Advance g now =>
      match goroutines p !! g with
      | Some gr =>
          let '(gr', m) := runScanStep now gr (mgr p) in
          mkProcess m (<[g := gr']> (goroutines p)) (replies p)
      | None => p
      end
  end.

Definition run (acts : list Action) (p : Process) : Process :=
  foldl (λ p a, step a p) p acts.

Definition boot : Process := mkProcess NewManager [] [].

(** The scans in progress: the tasks of [m.tasks] whose status is [running]. *)
Definition runningScans (p : Process) : list Task :=
  filter (λ t, Status t = StatusRunning) (rangeTasks (mgr p)).

(** *** Admission of a new scan *)

Lemma find_isRunning_None (l : list Task) :
  List.find isRunning l = None ↔ ∀ t, t ∈ l → Status t ≠ StatusRunning.
Proof.
  induction l as [|t l IH]; simpl.
  - split; [intros _ t Ht; inversion Ht | done].
  - unfold isRunning at 1. case_bool_decide as Hs.
    + split; [done | intros H; destruct (H t); [left | done]].
    + rewrite IH. split.
      * intros H t' [->|Ht']%elem_of_cons; auto.
      * intros H t' Ht'. apply H. by right.
Qed.

Lemma GetTaskStatus_elem (m : Manager) (id : string) (t : Task) :
  GetTaskStatus id m = Some t → t ∈ rangeTasks m.
Proof.
  unfold GetTaskStatus, rangeTasks. intros H.
  destruct (tasks m !! id) as [ptr|] eqn:Hid; simpl in H; [|done].
  apply list_elem_of_omap. exists (id, ptr). split; [|done].
  by apply elem_of_map_to_list.
Qed.

(** While a task of [m.tasks] is [running], [StartNewScanTask] fails with
    the error that names a task of [m.tasks] that is [running]; the manager is
    left as it was and no goroutine is started. *)
Lemma StartNewScanTask_conflict (uuid : string) (now : Z) (path : string)
    (m : Manager) (t : Task) :
  t ∈ rangeTasks m → Status t = StatusRunning →
  ∃ running,
    running ∈ rangeTasks m ∧ Status running = StatusRunning
    ∧ StartNewScanTask uuid now path m = (m, inr (ErrScanInProgress (ID running)), None).
Proof.
  intros Hin Hrun. unfold StartNewScanTask.
  destruct (List.find isRunning (rangeTasks m)) as [t'|] eqn:Hf.
  - apply find_some in Hf as [Hin' Hrun']. exists t'.
    split; [by apply list_elem_of_In|]. split; [|done].
    by apply bool_decide_eq_true_1 in Hrun'.
  - destruct (proj1 (find_isRunning_None _) Hf t Hin Hrun).
Qed.


(** C9.  Two calls of [StartNewScanTask] that both come before either
    goroutine has set its task to [running] are both accepted: the loop only
    looks for [StatusRunning], and both tasks are still [pending].  Once the
    two goroutines have claimed their tasks, two scans run at once. *)
Lemma C9_two_scans_running :
  let p := run [CallStart "t1" 10 "/a"; CallStart "t2" 11 "/b"; Advance 0 12; Advance 1 13] boot in
  replies p = [inl "t1"; inl "t2"]
  ∧ ID <$> runningScans p = ["t1"; "t2"]
  ∧ gPc <$> goroutines p = [1%nat; 1%nat].
Proof. vm_compute. done. Qed.

(** *** One scan at a time, once it runs *)

Definition oneRunning : Manager :=
  mgr (run [CallStart "t1" 10 "/a"; Advance 0 12] boot).

(** While [t1] runs, the call for a second scan is refused. *)
Lemma second_scan_refused_while_running :
  (mkTask "t1" StatusRunning 0 "" 10 None "/a" ∈ rangeTasks oneRunning
   ∧ Status (mkTask "t1" StatusRunning 0 "" 10 None "/a") = StatusRunning)
  ∧ ∃ running,
      running ∈ rangeTasks oneRunning ∧ Status running = StatusRunning
      ∧ StartNewScanTask "t2" 11 "/b" oneRunning
        = (oneRunning, inr (ErrScanInProgress (ID running)), None).
Proof.
  assert (Hin : mkTask "t1" StatusRunning 0 "" 10 None "/a" ∈ rangeTasks oneRunning).
  { vm_compute. by left. }
  split; [done|].
  exact (StartNewScanTask_conflict "t2" 11 "/b" oneRunning _ Hin eq_refl).
Defined.


(** *** The life of a task *)

(** What the number of critical sections a goroutine has been through says
    about its task. *)
Definition statusAt (pc : nat) : TaskStatus :=
  match pc with
  | 0%nat => StatusPending
  | 1%nat | 2%nat => StatusRunning
  | _ => StatusCompleted
  end.

Definition progressAt (pc : nat) : Z :=
  match pc with
  | 0%nat | 1%nat => 0
  | 2%nat => 50
  | _ => 100
  end.

Definition taskAt (pc : nat) (t : Task) : Prop :=
  Status t = statusAt pc ∧ Progress t = progressAt pc
  ∧ (is_Some (EndTime t) ↔ pc = 3%nat) ∧ Error t = "".

(** The [i]-th goroutine holds the [i]-th task, and every pointer of
    [m.tasks] is one of them. *)
Record Consistent (p : Process) : Prop := mkConsistent {
  cons_length : length (goroutines p) = length (heap (mgr p));
  cons_task : ∀ i g, goroutines p !! i = Some g →
    gTask g = i ∧ (gPc g ≤ 3)%nat ∧ ∃ t, heap (mgr p) !! i = Some t ∧ taskAt (gPc g) t;
  cons_ptr : ∀ id ptr, tasks (mgr p) !! id = Some ptr → (ptr < length (heap (mgr p)))%nat;
}.

Lemma Consistent_boot : Consistent boot.
Proof.
  split; simpl; [done | intros i g Hi; by rewrite lookup_nil in Hi |].
  intros id ptr H. by rewrite lookup_empty in H.
Qed.

Lemma Consistent_step a p : Consistent p → Consistent (step a p).
Proof.
  intros [Hlen Htask Hptr]. destruct a as [uuid now path | g now]; simpl.
  - unfold StartNewScanTask. destruct (List.find isRunning _) as [t|]; simpl.
    + split; simpl; [by rewrite app_nil_r | | done].
      intros i g. rewrite app_nil_r. apply Htask.
    + split; simpl.
      * rewrite !length_app. simpl. lia.
      * intros i g Hi. apply lookup_app_Some in Hi as [Hi | [Hge Hi]].
        -- destruct (Htask i g Hi) as (Hg & Hpc & t & Ht & Hat).
           split; [done|]. split; [done|]. exists t. split; [|done].
           by apply lookup_app_l_Some.
        -- apply list_lookup_singleton_Some in Hi as [Hi <-]. simpl.
           assert (i = length (heap (mgr p))) as -> by lia.
           split; [done|]. split; [lia|]. eexists. split.
           ++ rewrite lookup_app_r by lia. by rewrite Nat.sub_diag.
           ++ repeat split; simpl; try done.
      * intros id ptr. rewrite length_app. simpl.
        destruct (decide (id = uuid)) as [->|Hne].
        -- rewrite lookup_insert_eq. intros [= <-]. lia.
        -- rewrite lookup_insert_ne by done. intros H%Hptr. lia.
  - destruct (goroutines p !! g) as [gr|] eqn:Hg; [|by split].
    destruct (Htask g gr Hg) as (Hgt & Hpc & t & Ht & Hstat & Hprog & Hend & Herr).
    assert (∃ f pc', runScanStep now gr (mgr p) = (mkGoroutine (gTask gr) pc', updTask (gTask gr) f (mgr p))
                     ∧ (pc' ≤ 3)%nat ∧ taskAt pc' (f t)) as (f & pc' & -> & Hpc' & Hat').
    { unfold runScanStep, updTask.
      destruct (gPc gr) as [|[|[|n]]] eqn:Hn.
      - exists setRunning, 1%nat. split; [done|]. split; [lia|]. 
        repeat split; simpl; try done; intros H; apply Hend in H; lia.
      - exists (setProgress 50), 2%nat. split; [done|]. split; [lia|].
        repeat split; simpl; try done; intros H; apply Hend in H; lia.
      - exists (setCompleted now), 3%nat. split; [done|]. split; [lia|].
        repeat split; simpl; try done.
      - exists (λ t, t), (gPc gr). split; [|split; [lia|]]. 2:{ rewrite Hn. by repeat split; try apply Hend. }
        destruct gr as [tk pc], (mgr p) as [h tks]. simpl in *. subst pc.
        by rewrite list_alter_id. }
    simpl. split; simpl.
    + by rewrite length_insert, length_alter.
    + intros i g'. destruct (decide (i = g)) as [->|Hne].
      * rewrite list_lookup_insert_eq by (by eapply lookup_lt_Some).
        intros [= <-]. simpl. split; [done|]. split; [done|].
        exists (f t). split; [|done]. rewrite Hgt. rewrite list_lookup_alter_eq, Ht. done.
      * rewrite list_lookup_insert_ne by done. intros Hi.
        destruct (Htask i g' Hi) as (Hg' & Hpc'' & t' & Ht' & Hat'').
        split; [done|]. split; [done|]. exists t'. split; [|done].
        rewrite Hgt. by rewrite list_lookup_alter_ne.
    + intros id ptr H%Hptr. by rewrite length_alter.
Qed.

Lemma Consistent_run acts p : Consistent p → Consistent (run acts p).
Proof.
  unfold run. revert p. induction acts as [|a acts IH]; intros p Hp; simpl; [done|].
  by apply IH, Consistent_step.
Qed.

(** Every task that [GetTaskStatus] can return is in one of four states:
    pending at 0, running at 0 or at 50, or completed at 100 with its end
    time; no task is ever marked failed, and none carries an error text. *)
Theorem task_is_pending_running_or_completed (acts : list Action) (id : string) (t : Task) :
  GetTaskStatus id (mgr (run acts boot)) = Some t →
  Error t = ""
  ∧ ((Status t = StatusPending ∧ Progress t = 0 ∧ EndTime t = None)
     ∨ (Status t = StatusRunning ∧ (Progress t = 0 ∨ Progress t = 50) ∧ EndTime t = None)
     ∨ (Status t = StatusCompleted ∧ Progress t = 100 ∧ is_Some (EndTime t))).
Proof.
  intros Hget. destruct (Consistent_run acts boot Consistent_boot) as [Hlen Htask Hptr].
  unfold GetTaskStatus in Hget.
  destruct (tasks (mgr (run acts boot)) !! id) as [ptr|] eqn:Hid; [|done]. simpl in Hget.
  assert (is_Some (goroutines (run acts boot) !! ptr)) as [g Hg].
  { apply lookup_lt_is_Some. rewrite Hlen. by eapply lookup_lt_Some. }
  destruct (Htask ptr g Hg) as (_ & Hpc & t' & Ht' & Hstat & Hprog & Hend & Herr).
  rewrite Hget in Ht'. injection Ht' as <-. split; [done|].
  assert (∀ o : option Z, ¬ is_Some o → o = None) as Hnone.
  { intros [z|] Hz; [destruct Hz; by eexists | done]. }
  destruct (gPc g) as [|[|[|[|n]]]]; simpl in *; try lia.
  - left. repeat split; try done. apply Hnone. rewrite Hend. lia.
  - right. left. repeat split; try done; [by left|]. apply Hnone. rewrite Hend. lia.
  - right. left. repeat split; try done; [by right|]. apply Hnone. rewrite Hend. lia.
  - right. right. repeat split; try done. by apply Hend.
Qed.

(** The ids drawn by the calls of a run. *)
Definition drawn (a : Action) : list string :=
  match a with CallStart uuid _ _ => [uuid] | Advance _ _ => [] end.

(** No action ever removes a task: once [GetTaskStatus] finds a task under
    an id, it finds that task (same id, start time and path) after every
    further action, as long as no later call draws the same id again. *)

Theorem task_is_never_forgotten (acts more : list Action) (id : string) (t : Task) :
  GetTaskStatus id (mgr (run acts boot)) = Some t →
  id ∉ more ≫= drawn →
  ∃ t', GetTaskStatus id (mgr (run (acts ++ more) boot)) = Some t'
        ∧ ID t' = ID t ∧ StartTime t' = StartTime t ∧ scanPath t' = scanPath t.
Proof.
  unfold run at 2. rewrite foldl_app. fold (run acts boot).
  pose proof (Consistent_run acts boot Consistent_boot) as Hc.
  revert t Hc. generalize (run acts boot) as p.
  induction more as [|a more IH]; intros p t Hc Hget Hfresh.
  - by exists t.
  - simpl in *. rewrite not_elem_of_app in Hfresh. destruct Hfresh as [Hfa Hfresh].
    assert (∃ t1, GetTaskStatus id (mgr (step a p)) = Some t1
                  ∧ ID t1 = ID t ∧ StartTime t1 = StartTime t ∧ scanPath t1 = scanPath t)
      as (t1 & Hget1 & Hid1 & Hst1 & Hsp1).
    { destruct Hc as [Hlen Htask Hptr]. unfold GetTaskStatus in *.
      destruct (tasks (mgr p) !! id) as [ptr|] eqn:Hid; [|done]. simpl in Hget.
      destruct a as [uuid now path | g now]; simpl in *.
      - unfold StartNewScanTask. destruct (List.find isRunning _); simpl.
        + exists t. by rewrite Hid.
        + exists t. rewrite lookup_insert_ne by set_solver. rewrite Hid. simpl.
          split; [|done]. by apply lookup_app_l_Some.
      - destruct (goroutines p !! g) as [gr|] eqn:Hg; [|exists t; by rewrite Hid].
        unfold runScanStep, updTask.
        destruct (gPc gr) as [|[|[|n]]]; simpl; rewrite ?Hid; simpl;
          try (exists t; by split).
        all: destruct (decide (gTask gr = ptr)) as [->|Hne];
          [rewrite list_lookup_alter_eq, Hget; simpl; by eexists
          |rewrite list_lookup_alter_ne by done; by exists t]. }
    destruct (IH (step a p) t1 (Consistent_step a p Hc) Hget1 Hfresh) as (t' & Hget' & ? & ? & ?).
    exists t'. split; [exact Hget'|]. split; [congruence|]. split; congruence.
Qed.

(** After its first critical section the task of [t1] is running at 0. *)
Lemma started_scan_is_running_at_0 :
  GetTaskStatus "t1" (mgr (run [CallStart "t1" 10 "/a"; Advance 0 12] boot))
  = Some (mkTask "t1" StatusRunning 0 "" 10 None "/a")
  ∧ Error (mkTask "t1" StatusRunning 0 "" 10 None "/a") = ""
  ∧ ((Status (mkTask "t1" StatusRunning 0 "" 10 None "/a") = StatusPending
      ∧ Progress (mkTask "t1" StatusRunning 0 "" 10 None "/a") = 0
      ∧ EndTime (mkTask "t1" StatusRunning 0 "" 10 None "/a") = None)
     ∨ (Status (mkTask "t1" StatusRunning 0 "" 10 None "/a") = StatusRunning
        ∧ (Progress (mkTask "t1" StatusRunning 0 "" 10 None "/a") = 0
           ∨ Progress (mkTask "t1" StatusRunning 0 "" 10 None "/a") = 50)
        ∧ EndTime (mkTask "t1" StatusRunning 0 "" 10 None "/a") = None)
     ∨ (Status (mkTask "t1" StatusRunning 0 "" 10 None "/a") = StatusCompleted
        ∧ Progress (mkTask "t1" StatusRunning 0 "" 10 None "/a") = 100
        ∧ is_Some (EndTime (mkTask "t1" StatusRunning 0 "" 10 None "/a")))).
Proof.
  assert (Hget : GetTaskStatus "t1" (mgr (run [CallStart "t1" 10 "/a"; Advance 0 12] boot))
                 = Some (mkTask "t1" StatusRunning 0 "" 10 None "/a")) by by vm_compute.
  split; [exact Hget|].
  exact (task_is_pending_running_or_completed _ _ _ Hget).
Defined.

(** [t1] is still listed after it has completed and [t2] has been started. *)
Lemma finished_scan_is_still_listed :
  (GetTaskStatus "t1" (mgr (run [CallStart "t1" 10 "/a"] boot))
   = Some (mkTask "t1" StatusPending 0 "" 10 None "/a")
   ∧ "t1" ∉ [Advance 0 12; Advance 0 13; Advance 0 14; CallStart "t2" 15 "/b"] ≫= drawn)
  ∧ ∃ t', GetTaskStatus "t1"
            (mgr (run ([CallStart "t1" 10 "/a"]
                       ++ [Advance 0 12; Advance 0 13; Advance 0 14; CallStart "t2" 15 "/b"]) boot))
          = Some t'
          ∧ ID t' = "t1" ∧ StartTime t' = 10 ∧ scanPath t' = "/a".
Proof.
  assert (Hget : GetTaskStatus "t1" (mgr (run [CallStart "t1" 10 "/a"] boot))
                 = Some (mkTask "t1" StatusPending 0 "" 10 None "/a")) by by vm_compute.
  assert (Hfresh : "t1" ∉ [Advance 0 12; Advance 0 13; Advance 0 14; CallStart "t2" 15 "/b"] ≫= drawn).
  { apply (bool_decide_unpack _). by vm_compute. }
  split; [by split|].
  exact (task_is_never_forgotten _ _ _ _ Hget Hfresh).
Defined.

End TaskManager.

(** ** Go strings and the [unicode] package *)

Module GoText.

(** A Go string is taken as the sequence of its code points (what [range]
    yields on valid UTF-8); comparing two such strings byte-wise, as Go does,
    is comparing the sequences code point by code point. *)
Abbreviation rune := Z (only parsing).
Abbreviation gostring := (list Z) (only parsing).

Definition lit (s : string) : gostring :=
  (λ a, Z.of_N (Ascii.N_of_ascii a)) <$> String.list_ascii_of_string s.

(** Go's [unicode] tables beyond ASCII are data of the Go distribution; the
    ASCII rows are written out below. *)
Record UnicodeTables := mkUnicodeTables {
  tblIsLetter : rune → bool;
  tblIsNumber : rune → bool;
  tblIsSpace : rune → bool;
  tblToUpper : rune → rune;
  tblToLower : rune → rune;
  tblFoldEq : rune → rune → bool;
}.

Fixpoint dropWhile {A} (f : A → bool) (l : list A) : list A :=
  match l with
  | [] => []
  | a :: l' => if f a then dropWhile f l' else l
  end.

Definition between (lo hi r : rune) : bool := (lo <=? r) && (r <=? hi).

Definition isUpperAZ (r : rune) : bool := between 65 90 r.
Definition isLowerAZ (r : rune) : bool := between 97 122 r.
Definition isDigit09 (r : rune) : bool := between 48 57 r.

Section Unicode.
Context (U : UnicodeTables).

Definition IsLetter (r : rune) : bool :=
  if r <? 128 then isUpperAZ r || isLowerAZ r else tblIsLetter U r.

Definition IsNumber (r : rune) : bool :=
  if r <? 128 then isDigit09 r else tblIsNumber U r.

Definition IsSpace (r : rune) : bool :=
  if r <? 128 then between 9 13 r || (r =? 32) else tblIsSpace U r.

Definition ToUpper (r : rune) : rune :=
  if r <? 128 then (if isLowerAZ r then r - 32 else r) else tblToUpper U r.

Definition ToLower (r : rune) : rune :=
  if r <? 128 then (if isUpperAZ r then r + 32 else r) else tblToLower U r.

(** [strings.ToLower] maps [unicode.ToLower] over the string. *)
Definition strToLower (s : gostring) : gostring := ToLower <$> s.

(** [strings.EqualFold]: equal under simple case folding. *)
Definition runeFoldEq (a b : rune) : bool :=
  (a =? b)
  || (if (a <? 128) && (b <? 128) then ToLower a =? ToLower b else tblFoldEq U a b).

Fixpoint EqualFold (s t : gostring) : bool :=
  match s, t with
  | [], [] => true
  | a :: s', b :: t' => runeFoldEq a b && EqualFold s' t'
  | _, _ => false
  end.

(** [strings.TrimSpace]. *)
Definition TrimSpace (s : gostring) : gostring :=
  reverse (dropWhile IsSpace (reverse (dropWhile IsSpace s))).

End Unicode.

(** Tables with nothing beyond ASCII, for runs on ASCII names. *)
Definition asciiTables : UnicodeTables :=
  mkUnicodeTables (λ _, false) (λ _, false) (λ _, false) (λ r, r) (λ r, r) (λ _ _, false).

Definition HasPrefix (s p : gostring) : bool := bool_decide (p `prefix_of` s).
Definition HasSuffix (s p : gostring) : bool := bool_decide (p `suffix_of` s).

Definition TrimSuffix (s suf : gostring) : gostring :=
  if HasSuffix s suf then take (length s - length suf) s else s.

(** [strings.TrimRight(s, cutset)]. *)
Definition TrimRight (s cutset : gostring) : gostring :=
  reverse (dropWhile (λ r, bool_decide (r ∈ cutset)) (reverse s)).

(** The length of the UTF-8 encoding, which is what [len] returns. *)
Definition utf8Len (r : rune) : nat :=
  if r <? 128 then 1 else if r <? 2048 then 2 else if r <? 65536 then 3 else 4.

Definition len (s : gostring) : nat := sum_list (utf8Len <$> s).

(** [%d] of [fmt.Sprintf]. *)
Definition itoa (z : Z) : gostring := lit (pretty z).

(** Lexicographic order, for the sorted listings of [os.ReadDir] and
    [filepath.WalkDir]. *)
Fixpoint lexLeb {A} (leb : A → A → bool) (s t : list A) : bool :=
  match s, t with
  | [], _ => true
  | _ :: _, [] => false
  | a :: s', b :: t' =>
      if leb a b then (if leb b a then lexLeb leb s' t' else true) else false
  end.

Definition strLeb : gostring → gostring → bool := lexLeb Z.leb.

End GoText.

(** ** The file system seen through [os] and [path/filepath] *)

Module FS.
Import GoText.

(** A path is the list of its components below the root (the Go code works
    on absolute, cleaned paths: the orchestrator passes [filepath.Abs] of
    every configured directory).  [filepath.Join p name] is [p ++ [name]]. *)
Abbreviation path := (list (list Z)) (only parsing).

Inductive node :=
| Dir
| File (data : list Z).

#[global] Instance node_eq_dec : EqDecision node.
Proof. solve_decision. Defined.

Abbreviation fs := (gmap (list (list Z)) node) (only parsing).

Inductive Errno := ENOENT | ENOTDIR | EISDIR | ENOTEMPTY | EINVAL.

#[global] Instance Errno_eq_dec : EqDecision Errno.
Proof. solve_decision. Defined.

Inductive result (A : Type) :=
| Ok (a : A)
| Err (e : Errno).
Arguments Ok {A} a.
Arguments Err {A} e.

#[global] Instance result_eq_dec `{EqDecision A} : EqDecision (result A).
Proof. solve_decision. Defined.

Definition isOk {A} (r : result A) : bool :=
  match r with Ok _ => true | Err _ => false end.

Definition DirOf (p : path) : path := removelast p.
Definition Base (p : path) : gostring := default [] (last p).

(** [filepath.Ext]: the suffix of the last component from its last dot on. *)
Fixpoint extOf (name : gostring) : gostring :=
  match name with
  | [] => []
  | r :: name' =>
      match extOf name' with
      | [] => if r =? 46 then name else []
      | e => e
      end
  end.

Definition Ext (p : path) : gostring := extOf (Base p).

(** The root always exists. *)
Definition Stat (s : fs) (p : path) : result node :=
  if decide (p = []) then Ok Dir
  else match s !! p with Some n => Ok n | None => Err ENOENT end.

Definition exists_ (s : fs) (p : path) : bool := isOk (Stat s p).
Definition isDir (s : fs) (p : path) : bool :=
  match Stat s p with Ok Dir => true | _ => false end.

Record DirEntry := mkDirEntry {
  Name : gostring;
  IsDir : bool;
}.

Definition isChildOf (p : path) (kv : list (list Z) * node) : Prop :=
  kv.1 ≠ [] ∧ DirOf kv.1 = p.

#[global] Instance isChildOf_dec p kv : Decision (isChildOf p kv).
Proof. unfold isChildOf. apply _. Defined.

Definition toEntry (kv : list (list Z) * node) : DirEntry :=
  mkDirEntry (Base kv.1) (bool_decide (kv.2 = Dir)).

Definition children (s : fs) (p : path) : list DirEntry :=
  toEntry <$> filter (isChildOf p) (map_to_list s).

Definition entryLe (a b : DirEntry) : Prop := strLeb (Name a) (Name b).

(** [os.ReadDir]: the entries of a directory, sorted by file name. *)
Definition ReadDir (s : fs) (p : path) : result (list DirEntry) :=
  match Stat s p with
  | Ok Dir => Ok (merge_sort entryLe (children s p))
  | Ok (File _) => Err ENOTDIR
  | Err e => Err e
  end.

Definition ReadFile (s : fs) (p : path) : result (list Z) :=
  match Stat s p with
  | Ok (File d) => Ok d
  | Ok Dir => Err EISDIR
  | Err e => Err e
  end.

Definition hasChildren (s : fs) (p : path) : bool :=
  bool_decide (children s p ≠ []).

(** [os.Remove]: a file, or an empty directory. *)
Definition Remove (s : fs) (p : path) : result (gmap (list (list Z)) node) :=
  match s !! p with
  | None => Err ENOENT
  | Some (File _) => Ok (delete p s)
  | Some Dir => if hasChildren s p then Err ENOTEMPTY else Ok (delete p s)
  end.

(** [os.MkdirAll]: creates the missing directories along [p]. *)
Fixpoint mkdirFrom (pre rest : path) (s : fs) : result (gmap (list (list Z)) node) :=
  match rest with
  | [] => Ok s
  | n :: rest' =>
      let q := pre ++ [n] in
      match s !! q with
      | Some (File _) => Err ENOTDIR
      | Some Dir => mkdirFrom q rest' s
      | None => mkdirFrom q rest' (<[q := Dir]> s)
      end
  end.

Definition MkdirAll (s : fs) (p : path) : result (gmap (list (list Z)) node) :=
  mkdirFrom [] p s.

(** Moving a directory takes everything below it along. *)
Definition rebase (src dst : path) (kv : list (list Z) * node) : option (list (list Z) * node) :=
  if decide (src `prefix_of` kv.1) then Some (dst ++ drop (length src) kv.1, kv.2) else None.

Definition moveTree (src dst : path) (s : fs) : gmap (list (list Z)) node :=
  list_to_map (omap (rebase src dst) (map_to_list s))
  ∪ filter (λ kv, ¬ src `prefix_of` kv.1) s.

(** [os.Rename], as rename(2) behaves: the source must exist, the parent of
    the destination must be a directory, a file replaces a file, a directory
    replaces only an empty directory, and a directory cannot be moved below
    itself. *)
Definition Rename (s : fs) (src dst : path) : result (gmap (list (list Z)) node) :=
  match s !! src with
  | None => Err ENOENT
  | Some n =>
      if decide (src = dst) then Ok s
      else if decide (dst = []) then Err EINVAL
      else if negb (isDir s (DirOf dst)) then Err ENOENT
      else match n, s !! dst with
           | File _, Some Dir => Err EISDIR
           | File d, _ => Ok (<[dst := File d]> (delete src s))
           | Dir, Some (File _) => Err ENOTDIR
           | Dir, dstNode =>
               if decide (src `prefix_of` dst) then Err EINVAL
               else if bool_decide (dstNode = Some Dir) && hasChildren s dst then Err ENOTEMPTY
               else Ok (moveTree src dst (delete dst s))
           end
  end.

Definition pathLeb : list (list Z) → list (list Z) → bool := lexLeb strLeb.

(** [filepath.WalkDir], reduced to what its callbacks here look at: the
    files at or below [root], in lexical order. *)
Definition isFileBelow (root : path) (kv : list (list Z) * node) : Prop :=
  root `prefix_of` kv.1 ∧ kv.2 ≠ Dir.

#[global] Instance isFileBelow_dec root kv : Decision (isFileBelow root kv).
Proof. unfold isFileBelow. apply _. Defined.

Definition filesBelow (s : fs) (root : path) : list (list (list Z)) :=
  (filter (isFileBelow root) (map_to_list s)).*1.

Definition WalkDirFiles (s : fs) (root : path) : result (list (list (list Z))) :=
  match Stat s root with
  | Err e => Err e
  | Ok (File _) => Ok [root]
  | Ok Dir => Ok (merge_sort (λ p q, pathLeb p q) (filesBelow s root))
  end.

(** Building a file system for a run: directories are created on the way. *)
Definition addDir (p : path) (s : fs) : gmap (list (list Z)) node :=
  match MkdirAll s p with Ok s' => s' | Err _ => s end.

Definition addFile (p : path) (d : list Z) (s : fs) : gmap (list (list Z)) node :=
  <[p := File d]> (addDir (DirOf p) s).

(** *** Paths and listings *)

Lemma path_snoc (k : list (list Z)) : k ≠ [] → k = DirOf k ++ [Base k].
Proof.
  destruct k as [|a k _] using rev_ind; [done|]. intros _.
  unfold DirOf, Base. by rewrite removelast_last, last_snoc.
Qed.

Lemma DirOf_snoc (p : list (list Z)) (n : list Z) : DirOf (p ++ [n]) = p.
Proof. unfold DirOf. by rewrite removelast_last. Qed.

Lemma Base_snoc (p : list (list Z)) (n : list Z) : Base (p ++ [n]) = n.
Proof. unfold Base. by rewrite last_snoc. Qed.

Lemma children_NoDup (s : gmap (list (list Z)) node) (p : list (list Z)) :
  NoDup (Name <$> children s p).
Proof.
  unfold children. rewrite <-list_fmap_compose.
  apply NoDup_fmap_2_strong; [|apply NoDup_filter, NoDup_map_to_list].
  intros [k1 n1] [k2 n2] [[Hk1 Hd1] Hin1]%list_elem_of_filter
         [[Hk2 Hd2] Hin2]%list_elem_of_filter Hbase.
  simpl in *. assert (k1 = k2) as ->.
  { rewrite (path_snoc k1), (path_snoc k2) by done. congruence. }
  apply elem_of_map_to_list in Hin1, Hin2. congruence.
Qed.

Lemma ReadDir_NoDup s p es : ReadDir s p = Ok es → NoDup (Name <$> es).
Proof.
  unfold ReadDir. destruct (Stat s p) as [[|d]|e]; intros [= <-].
  rewrite merge_sort_Permutation. apply children_NoDup.
Qed.

(** *** Files *)

Lemma ReadFile_Ok (s : gmap (list (list Z)) node) p d :
  ReadFile s p = Ok d ↔ p ≠ [] ∧ s !! p = Some (File d).
Proof.
  unfold ReadFile, Stat. destruct (decide (p = [])) as [->|Hp].
  - split; [done | by intros []].
  - destruct (s !! p) as [[|d']|]; split; try done; try (by intros [? ?]).
    + intros [= ->]. done.
    + intros [_ [= ->]]. done.
Qed.

Lemma ReadFile_agree (s1 s2 : gmap (list (list Z)) node) p :
  s1 !! p = s2 !! p → ReadFile s1 p = ReadFile s2 p.
Proof. intros H. unfold ReadFile, Stat. by rewrite H. Qed.

Lemma Remove_file (s : gmap (list (list Z)) node) p d :
  s !! p = Some (File d) → Remove s p = Ok (delete p s).
Proof. intros H. unfold Remove. by rewrite H. Qed.

Lemma DirOf_ne (p : list (list Z)) : p ≠ [] → DirOf p ≠ p.
Proof.
  intros Hp Heq. apply (f_equal length) in Heq.
  rewrite (path_snoc p Hp) in Heq at 2. rewrite length_app in Heq. simpl in Heq. lia.
Qed.

Lemma Rename_file (s : gmap (list (list Z)) node) src dst d :
  s !! src = Some (File d) → src ≠ dst → dst ≠ [] → isDir s (DirOf dst) = true →
  s !! dst = None →
  Rename s src dst = Ok (<[dst := File d]> (delete src s)).
Proof.
  intros Hsrc Hne Hdst Hdir Hnone. unfold Rename. rewrite Hsrc.
  rewrite decide_False by done. rewrite decide_False by done.
  rewrite Hdir. simpl. by rewrite Hnone.
Qed.

Lemma isDir_delete_file (s : gmap (list (list Z)) node) p q d :
  s !! p = Some (File d) → isDir (delete p s) q = isDir s q.
Proof.
  intros Hp. unfold isDir, Stat. destruct (decide (q = [])); [done|].
  destruct (decide (p = q)) as [->|Hne].
  - by rewrite lookup_delete_eq, Hp.
  - by rewrite lookup_delete_ne.
Qed.

Lemma WalkDirFiles_elem (s : gmap (list (list Z)) node) root files p :
  isDir s root = true → WalkDirFiles s root = Ok files →
  p ∈ files ↔ root `prefix_of` p ∧ ∃ d, s !! p = Some (File d).
Proof.
  unfold isDir, WalkDirFiles. destruct (Stat s root) as [[|?]|]; try done.
  intros _ [= <-]. rewrite merge_sort_Permutation. unfold filesBelow.
  rewrite list_elem_of_fmap. split.
  - intros [[k n] [-> [[Hpre Hn] Hin]%list_elem_of_filter]]. simpl in *.
    apply elem_of_map_to_list in Hin. split; [done|]. destruct n; [done | by eexists].
  - intros [Hpre [d Hd]]. exists (p, File d). split; [done|].
    apply list_elem_of_filter. split; [by split | by apply elem_of_map_to_list].
Qed.

End FS.

(** ** Orders the Go runtime leaves open *)

Module GoRuntime.

(** A [range] over a map visits every entry once, in an order the language
    does not fix, and the tasks sent down a channel to a pool of workers reach
    their critical sections in any order.  [permute site] is the order taken
    at the loop or channel numbered [site]. *)
Record Order := mkOrder {
  permute : nat → ∀ A : Type, list A → list A;
  permute_perm : ∀ site A (l : list A), permute site A l ≡ₚ l;
}.

Definition rangeMap `{Countable K} {V} (o : Order) (site : nat) (m : gmap K V) : list (K * V) :=
  permute o site _ (map_to_list m).

Definition inOrder : Order := mkOrder (λ _ _ l, l) (λ _ _ l, reflexivity l).

Definition reversed : Order := mkOrder (λ _ _ l, reverse l) (λ _ _ l, reverse_Permutation l).

Lemma rangeMap_perm `{Countable K} {V} (o : Order) (site : nat) (m : gmap K V) :
  rangeMap o site m ≡ₚ map_to_list m.
Proof. apply permute_perm. Qed.

Lemma rangeMap_elem `{Countable K} {V} (o : Order) (site : nat) (m : gmap K V) k v :
  (k, v) ∈ rangeMap o site m ↔ m !! k = Some v.
Proof. rewrite rangeMap_perm. apply elem_of_map_to_list. Qed.

Lemma rangeMap_NoDup_fst `{Countable K} {V} (o : Order) (site : nat) (m : gmap K V) :
  NoDup (rangeMap o site m).*1.
Proof. rewrite rangeMap_perm. apply NoDup_fst_map_to_list. Qed.

End GoRuntime.

(** ** The aggregator ([pkg/scanner/aggregator.go]) *)

Module Aggregator.
Import GoText FS GoRuntime.

Definition aggSuffix : gostring := lit "_agg".
Definition archiveChars : gostring := lit "ABCDEFGHIJKLMNOPQRSTUVWXYZ#".

(** A compiled [regexp.Regexp], by the two methods the code calls. *)
Record compiledRule := mkRule {
  ruleName : gostring;
  FindStringSubmatch : gostring → list gostring;
  SubexpNames : list gostring;
}.

(** What the aggregator takes from its surroundings: Go's Unicode tables,
    the go-unidecode library, the rules of the configuration, the quarantine
    directory of the global configuration, the clock, and the scheduling. *)
Record Env := mkEnv {
  tables : UnicodeTables;
  Unidecode : gostring → gostring;
  seriesGroupRules : list compiledRule;
  QuarantinePath : list (list Z);
  UnixNano : nat → Z;
  order : Order;
}.

(** The three places [os.Rename] is called from. *)
Inductive RenameSite := ArchiveMove | GroupMove | Quarantine.

#[global] Instance RenameSite_eq_dec : EqDecision RenameSite.
Proof. solve_decision. Defined.

(** One call of [os.Rename] as the run made it: where from, the arguments,
    whether the destination existed when the call was made, and whether the
    call succeeded. *)
Record RenameCall := mkRenameCall {
  rcSite : RenameSite;
  rcSrc : list (list Z);
  rcDst : list (list Z);
  rcDstExisted : bool;
  rcOk : bool;
}.

Record World := mkWorld {
  wfs : gmap (list (list Z)) node;
  wclock : nat;
  wtrace : list RenameCall;
}.

(** The two result maps the workers of a phase share under [mu]. *)
Record Moves := mkMoves {
  movedSet : gmap (list (list Z)) (list (list Z));
  unMovedSet : gmap (list (list Z)) bool;
}.

Definition noMoves : Moves := mkMoves ∅ ∅.

Definition setMoved (src dst : path) (mv : Moves) : Moves :=
  mkMoves (<[src := dst]> (movedSet mv)) (unMovedSet mv).

Definition setUnMoved (src : path) (mv : Moves) : Moves :=
  mkMoves (movedSet mv) (<[src := true]> (unMovedSet mv)).

Definition osRename (site : RenameSite) (src dst : path) (w : World) : bool * World :=
  let existed := exists_ (wfs w) dst in
  match Rename (wfs w) src dst with
  | Ok s' => (true, mkWorld s' (wclock w) (wtrace w ++ [mkRenameCall site src dst existed true]))
  | Err _ => (false, mkWorld (wfs w) (wclock w) (wtrace w ++ [mkRenameCall site src dst existed false]))
  end.

Definition osMkdirAll (p : path) (w : World) : bool * World :=
  match MkdirAll (wfs w) p with
  | Ok s' => (true, mkWorld s' (wclock w) (wtrace w))
  | Err _ => (false, w)
  end.

Definition timeNow (E : Env) (w : World) : Z * World :=
  (UnixNano E (wclock w), mkWorld (wfs w) (S (wclock w)) (wtrace w)).

(** [sanitizeName] of the classifier ([pkg/scanner/classifier.go]). *)
Definition illegalChars : gostring := lit "<>:/\|?*" ++ [34].

Definition sanitizeName (U : UnicodeTables) (name : gostring) : gostring :=
  let replaced := (λ r, if bool_decide (r ∈ illegalChars) then 32 else r) <$> name in
  let sanitized := TrimSpace U replaced in
  let sanitized := TrimRight sanitized (lit ". ") in
  TrimSpace U sanitized.

Section WithEnv.
Context (E : Env).

Fixpoint findFirstAlphaNum (s : gostring) : rune :=
  match s with
  | [] => 35
  | r :: s' =>
      if IsLetter (tables E) r || IsNumber (tables E) r
      then ToUpper (tables E) r
      else findFirstAlphaNum s'
  end.

(** [archiveWorker], the bucket of a folder. *)
Definition archiveDirName (folderName : gostring) : gostring :=
  let firstChar := findFirstAlphaNum (Unidecode E folderName) in
  if (65 <=? firstChar) && (firstChar <=? 90) then [firstChar] else lit "#".

Definition archiveNewPath (finalLibraryPath : path) (folderName : gostring) : list (list Z) :=
  finalLibraryPath ++ [archiveDirName folderName; folderName].

(** [archiveWorker], the body of its loop for one folder name. *)
Definition archiveOne (stagingPath finalLibraryPath : path) (st : World * Moves)
    (folderName : gostring) : World * Moves :=
  let '(w, mv) := st in
  let oldPath := stagingPath ++ [folderName] in
  let newPath := archiveNewPath finalLibraryPath folderName in
  if exists_ (wfs w) newPath then (w, setUnMoved oldPath mv)
  else
    let '(ok, w') := osRename ArchiveMove oldPath newPath w in
    if ok then (w', setMoved oldPath newPath mv) else (w', setUnMoved oldPath mv).

(** [groupMove]. *)
Definition groupMove (src dest quarantinePath : path) (st : World * Moves) : World * Moves :=
  let '(w, mv) := st in
  if exists_ (wfs w) dest then
    let mv' := setUnMoved src mv in
    let '(nano, w1) := timeNow E w in
    let quarantineDest := quarantinePath ++ [Base src ++ lit "_" ++ itoa nano] in
    let '(_, w2) := osRename Quarantine src quarantineDest w1 in
    (w2, mv')
  else
    let '(ok, w') := osRename GroupMove src dest w in
    if ok then (w', setMoved src dest mv) else (w', setUnMoved src mv).

(** *** Phase 1: the structure of the final library *)

Definition bucketNames : list (list Z) := (λ r, [r]) <$> archiveChars.

Definition checkEntry (entry : DirEntry) : bool :=
  if bool_decide (Name entry ∈ bucketNames) then IsDir entry
  else HasPrefix (Name entry) (lit ".") || EqualFold (tables E) (Name entry) (lit "Thumbs.db").

Definition mkdirBuckets (finalLibraryPath : path) (w : World) : bool * World :=
  foldl (λ '(ok, w) name,
           if ok : bool then osMkdirAll (finalLibraryPath ++ [name]) w else (false, w))
        (true, w) bucketNames.

Definition phase1_checkAndPrepareStructure (finalLibraryPath : path) (w : World) : bool * World :=
  let '(ok, w) := osMkdirAll finalLibraryPath w in
  if negb ok then (false, w) else
  let '(ok, w) :=
    match Stat (wfs w) finalLibraryPath with
    | Err ENOENT => osMkdirAll finalLibraryPath w
    | _ => (true, w)
    end in
  if negb ok then (false, w) else
  match ReadDir (wfs w) finalLibraryPath with
  | Err _ => (false, w)
  | Ok entries =>
      if forallb checkEntry entries then mkdirBuckets finalLibraryPath w else (false, w)
  end.

(** *** Phase 2: the staging folders go to their buckets *)

Definition dirNames (entries : list DirEntry) : list (list Z) :=
  Name <$> filter (λ e, IsDir e = true) entries.

(** The third component is [false] when the Go function returns an error. *)
Definition phase2_archiveStagingFolders (stagingPath finalLibraryPath : path) (w : World)
  : World * Moves * bool :=
  match ReadDir (wfs w) stagingPath with
  | Err ENOENT => (w, noMoves, true)
  | Err _ => (w, noMoves, false)
  | Ok entries =>
      let tasks := permute (order E) 2 _ (dirNames entries) in
      (foldl (archiveOne stagingPath finalLibraryPath) (w, noMoves) tasks, true)
  end.

(** *** Phase 3: series of one collection are merged inside their bucket *)

Definition groupOfRule (rule : compiledRule) (baseName : gostring) : gostring :=
  let matches := FindStringSubmatch rule baseName in
  if bool_decide (1 < length matches)%nat then
    match list_find (λ n, n = lit "group") (SubexpNames rule) with
    | Some (i, _) => if bool_decide (i < length matches)%nat then matches !!! i else []
    | None => []
    end
  else [].

Fixpoint groupNameOf (rules : list compiledRule) (baseName : gostring) : gostring :=
  match rules with
  | [] => []
  | rule :: rules' =>
      let groupName := groupOfRule rule baseName in
      if bool_decide (groupName ≠ []) then groupName else groupNameOf rules' baseName
  end.

Definition groupSeries (seriesPaths : list (list (list Z))) : gmap (list Z) (list (list (list Z))) :=
  foldl (λ groups seriesPath,
           let folderName := Base seriesPath in
           let baseName := TrimSuffix folderName aggSuffix in
           let groupName := groupNameOf (seriesGroupRules E) baseName in
           if bool_decide (groupName ≠ [])
           then <[groupName := default [] (groups !! groupName) ++ [seriesPath]]> groups
           else groups)
        ∅ seriesPaths.

(** The members of a group: the last one that is already an [_agg]
    directory, and the others in their order. *)
Definition splitMembers (members : list (list (list Z)))
  : option (list (list Z)) * list (list (list Z)) :=
  foldl (λ '(existingAggDir, nonAggMembers) p,
           if HasSuffix (Base p) aggSuffix then (Some p, nonAggMembers)
           else (existingAggDir, nonAggMembers ++ [p]))
        (None, []) members.

Definition aggregateGroup (archivePath quarantinePath : path) (st : World * Moves)
    (group : list Z * list (list (list Z))) : World * Moves :=
  let '(groupName, members) := group in
  if bool_decide (length members < 2)%nat then st else
  let '(existingAggDir, nonAggMembers) := splitMembers members in
  let targetAggDir :=
    match existingAggDir with
    | Some p => p
    | None => archivePath ++ [sanitizeName (tables E) groupName ++ aggSuffix]
    end in
  let '(ok, w) := osMkdirAll targetAggDir st.1 in
  if negb ok then (w, st.2) else
  foldl (λ st memberPath,
           groupMove memberPath (targetAggDir ++ [Base memberPath]) quarantinePath st)
        (w, st.2) nonAggMembers.

(** [aggregationWorker], the body of its loop for one bucket. *)
Definition aggregateBucket (quarantinePath : path) (st : World * Moves)
    (archivePath : list (list Z)) : World * Moves :=
  match ReadDir (wfs st.1) archivePath with
  | Err _ => st
  | Ok seriesEntries =>
      if bool_decide (length seriesEntries < 2)%nat then st else
      let seriesPaths := (λ name, archivePath ++ [name]) <$> dirNames seriesEntries in
      if bool_decide (length seriesPaths < 2)%nat then st else
      let groups := groupSeries seriesPaths in
      foldl (aggregateGroup archivePath quarantinePath) st (rangeMap (order E) 3 groups)
  end.

Definition bucketTasks (finalLibraryPath : path) (archiveDirs : list DirEntry)
  : list (list (list Z)) :=
  (λ e, finalLibraryPath ++ [Name e])
    <$> filter (λ e, IsDir e = true ∧ len (Name e) = 1%nat) archiveDirs.

Definition phase3_aggregateWithinArchiveFolders (finalLibraryPath quarantinePath : path)
    (w : World) : World * Moves :=
  let archiveDirs := match ReadDir (wfs w) finalLibraryPath with Ok es => es | Err _ => [] end in
  let tasks := permute (order E) 4 _ (bucketTasks finalLibraryPath archiveDirs) in
  foldl (aggregateBucket quarantinePath) (w, noMoves) tasks.

(** *** The changelog *)

(** The four loops that close [AggregateAndArchive]. *)
Definition composeChangelog (archiveMoved groupMoved : gmap (list (list Z)) (list (list Z)))
    (groupUnMoved : gmap (list (list Z)) bool) : gmap (list (list Z)) (list (list Z)) :=
  let finalChangelog := ∅ in
  let finalChangelog :=
    foldl (λ m kv, <[kv.1 := kv.2]> m) finalChangelog (rangeMap (order E) 5 archiveMoved) in
  let finalChangelog :=
    foldl (λ m kv, <[kv.1 := kv.2]> m) finalChangelog (rangeMap (order E) 6 groupMoved) in
  let intersection : gmap (list (list Z)) bool :=
    foldl (λ m kv, if bool_decide (is_Some (groupUnMoved !! kv.1)) then <[kv.1 := true]> m else m)
          ∅ (rangeMap (order E) 7 archiveMoved) in
  foldl (λ m kv, delete kv.1 m) finalChangelog (rangeMap (order E) 8 intersection).

Record Outcome := mkOutcome {
  changelog : option (gmap (list (list Z)) (list (list Z)));
  archiveMoves : Moves;
  groupMoves : Moves;
  world : World;
}.

(** [AggregateAndArchive]; [changelog] is [None] when Go returns an error.
    The moves of the two phases are kept beside the result. *)
Definition AggregateAndArchive (stagingPath finalLibraryPath : path) (w : World) : Outcome :=
  let '(ok, w1) := phase1_checkAndPrepareStructure finalLibraryPath w in
  if negb ok then mkOutcome None noMoves noMoves w1 else
  let '(w2, archive, ok) := phase2_archiveStagingFolders stagingPath finalLibraryPath w1 in
  if negb ok then mkOutcome None archive noMoves w2 else
  let '(w3, group) := phase3_aggregateWithinArchiveFolders finalLibraryPath (QuarantinePath E) w2 in
  mkOutcome
    (Some (composeChangelog (movedSet archive) (movedSet group) (unMovedSet group)))
    archive group w3.

End WithEnv.

(** What the four loops compute, whatever their order: the two maps joined
    (an entry of [groupMoved] replaces one of [archiveMoved] for the same
    source), without the sources that are keys of [archiveMoved] and keys of
    [groupUnMoved] at once. *)
Definition composedByKeys (archiveMoved groupMoved : gmap (list (list Z)) (list (list Z)))
    (groupUnMoved : gmap (list (list Z)) bool) : gmap (list (list Z)) (list (list Z)) :=
  filter (λ kv, kv.1 ∉ dom archiveMoved ∩ dom groupUnMoved) (groupMoved ∪ archiveMoved).

(** The changelog in the words of the specification,
    [(archiveMoved ∪ groupMoved) \ (archiveMoved ∩ groupUnMoved)]: the union
    of the committed moves of the two phases, minus the moves of phase 2
    whose destination phase 3 later recorded as un-moved. *)
Definition movedUnion (archiveMoved groupMoved : gmap (list (list Z)) (list (list Z)))
  : gmap (list (list Z)) (list (list Z)) :=
  groupMoved ∪ archiveMoved.

Definition movedAndUnMoved (archiveMoved : gmap (list (list Z)) (list (list Z)))
    (groupUnMoved : gmap (list (list Z)) bool) : gmap (list (list Z)) (list (list Z)) :=
  filter (λ kv, kv.2 ∈ dom groupUnMoved) archiveMoved.

Definition changelogAlgebra (archiveMoved groupMoved : gmap (list (list Z)) (list (list Z)))
    (groupUnMoved : gmap (list (list Z)) bool) : gmap (list (list Z)) (list (list Z)) :=
  movedUnion archiveMoved groupMoved ∖ movedAndUnMoved archiveMoved groupUnMoved.

(** *** Folds over the entries of a map *)

Section MapFolds.
Context `{Countable K} {V : Type}.

Lemma foldl_insert_union (l : list (K * V)) (m0 : gmap K V) :
  NoDup l.*1 →
  foldl (λ m kv, <[kv.1 := kv.2]> m) m0 l = list_to_map l ∪ m0.
Proof.
  revert m0. induction l as [|[k v] l IH]; intros m0 Hnd; simpl.
  - by rewrite map_empty_union.
  - inversion_clear Hnd as [|?? Hk Hnd']. rewrite IH; [|done].
    rewrite <-insert_union_l. symmetry. apply insert_union_r.
    by apply not_elem_of_list_to_map_1.
Qed.

Lemma foldl_delete_lookup {W} (l : list (K * W)) (m0 : gmap K V) (k : K) :
  foldl (λ m kv, delete kv.1 m) m0 l !! k = if decide (k ∈ l.*1) then None else m0 !! k.
Proof.
  revert m0. induction l as [|[k' x] l IH]; intros m0; simpl.
  - destruct (decide (k ∈ [])) as [Hk|]; [by apply elem_of_nil in Hk | done].
  - rewrite IH. destruct (decide (k ∈ l.*1)) as [Hl|Hl].
    + rewrite decide_True; [done | by right].
    + destruct (decide (k = k')) as [->|Hne].
      * rewrite lookup_delete_eq. rewrite decide_True; [done | by left].
      * rewrite lookup_delete_ne; [|done]. rewrite decide_False; [done|].
        by intros [?|?]%elem_of_cons.
Qed.

Lemma foldl_mark_dom {W} (u : gmap K W) (l : list (K * V)) (m0 : gmap K bool) (k : K) :
  k ∈ dom (foldl (λ m kv, if bool_decide (is_Some (u !! kv.1)) then <[kv.1 := true]> m else m) m0 l)
  ↔ (k ∈ l.*1 ∧ is_Some (u !! k)) ∨ k ∈ dom m0.
Proof.
  revert m0. induction l as [|[k' x] l IH]; intros m0; simpl.
  - set_solver.
  - rewrite IH. case_bool_decide as Hu; simpl in Hu.
    + rewrite dom_insert. set_solver.
    + set_solver.
Qed.

Lemma range_list_to_map (o : Order) (site : nat) (m : gmap K V) :
  list_to_map (rangeMap o site m) = m.
Proof.
  rewrite <-(list_to_map_to_list m) at 2.
  apply list_to_map_proper; [apply rangeMap_NoDup_fst | apply rangeMap_perm].
Qed.

Lemma range_fst_dom (o : Order) (site : nat) (m : gmap K V) (k : K) :
  k ∈ (rangeMap o site m).*1 ↔ k ∈ dom m.
Proof.
  rewrite elem_of_dom, list_elem_of_fmap. split.
  - intros [[k' v] [-> Hin]]. apply rangeMap_elem in Hin. by eexists.
  - intros [v Hv]. exists (k, v). split; [done|]. by apply rangeMap_elem.
Qed.

End MapFolds.

(** *** The changelog as set algebra *)

Lemma composeChangelog_lookup (E : Env) (a g : gmap (list (list Z)) (list (list Z)))
    (u : gmap (list (list Z)) bool) (k : list (list Z)) :
  composeChangelog E a g u !! k
  = if decide (k ∈ dom a ∧ k ∈ dom u) then None else (g ∪ a) !! k.
Proof.
  unfold composeChangelog. rewrite foldl_delete_lookup.
  rewrite !foldl_insert_union by apply rangeMap_NoDup_fst.
  rewrite !range_list_to_map, map_union_empty.
  destruct (decide (k ∈ dom a ∧ k ∈ dom u)) as [[Ha Hu]|Hn].
  - rewrite decide_True; [done|]. apply range_fst_dom, foldl_mark_dom. left.
    split; [by apply range_fst_dom | by apply elem_of_dom].
  - rewrite decide_False; [done|]. intros Hin. apply Hn.
    apply range_fst_dom, foldl_mark_dom in Hin as [[Hin Hu]|Hin]; [|set_solver].
    split; [by apply range_fst_dom in Hin | by apply elem_of_dom].
Qed.

(** Whatever order the four [range] loops take, the changelog they compose
    is the join of the two maps without the shared keys of [archiveMoved] and
    [groupUnMoved]. *)
Lemma composeChangelog_by_keys (E : Env)
    (archiveMoved groupMoved : gmap (list (list Z)) (list (list Z)))
    (groupUnMoved : gmap (list (list Z)) bool) :
  composeChangelog E archiveMoved groupMoved groupUnMoved
  = composedByKeys archiveMoved groupMoved groupUnMoved.
Proof.
  apply map_eq. intros k. rewrite composeChangelog_lookup.
  unfold composedByKeys.
  destruct (decide (k ∈ dom archiveMoved ∧ k ∈ dom groupUnMoved)) as [Hin|Hout].
  - symmetry. apply map_lookup_filter_None. right. intros v _. simpl.
    intros Hk. apply Hk. by apply elem_of_intersection.
  - destruct ((groupMoved ∪ archiveMoved) !! k) as [v|] eqn:Hk; symmetry.
    + apply map_lookup_filter_Some. split; [done|]. simpl.
      by intros ?%elem_of_intersection.
    + apply map_lookup_filter_None. by left.
Qed.

(** *** Listings without repetition *)

Lemma dirNames_NoDup es : NoDup (Name <$> es) → NoDup (dirNames es).
Proof.
  unfold dirNames. intros Hnd. eapply sublist_NoDup; [exact Hnd|].
  apply fmap_sublist, sublist_filter.
Qed.

(** *** Sources are recorded once

    [Covered D mv]: every source recorded in [mv] satisfies [D], and no source
    is recorded both as moved and as unmoved. *)
Definition Covered (D : list (list Z) → Prop) (mv : Moves) : Prop :=
  (∀ p, p ∈ dom (movedSet mv) ∨ p ∈ dom (unMovedSet mv) → D p)
  ∧ (∀ p, p ∈ dom (movedSet mv) → p ∈ dom (unMovedSet mv) → False).

Lemma Covered_mono (D D' : list (list Z) → Prop) mv :
  Covered D mv → (∀ p, D p → D' p) → Covered D' mv.
Proof. intros [H1 H2] HD. split; [|done]. intros p Hp. by apply HD, H1. Qed.

Lemma Covered_noMoves D : Covered D noMoves.
Proof. split; simpl; intros p; rewrite ?dom_empty; set_solver. Qed.

Lemma Covered_setMoved D mv src dst :
  Covered D mv → ¬ D src → Covered (λ p, D p ∨ p = src) (setMoved src dst mv).
Proof.
  intros [H1 H2] Hsrc. split; simpl.
  - intros p. rewrite dom_insert, elem_of_union, elem_of_singleton.
    intros [[->|Hp]|Hp]; [by right | left; apply H1; by left | left; apply H1; by right].
  - intros p. rewrite dom_insert, elem_of_union, elem_of_singleton.
    intros [->|Hp] Hu; [|by eapply H2]. apply Hsrc, H1. by right.
Qed.

Lemma Covered_setUnMoved D mv src :
  Covered D mv → ¬ D src → Covered (λ p, D p ∨ p = src) (setUnMoved src mv).
Proof.
  intros [H1 H2] Hsrc. split; simpl.
  - intros p. rewrite dom_insert, elem_of_union, elem_of_singleton.
    intros [Hp|[->|Hp]]; [left; apply H1; by left | by right | left; apply H1; by right].
  - intros p Hm. rewrite dom_insert, elem_of_union, elem_of_singleton.
    intros [->|Hp]; [|by eapply H2]. apply Hsrc, H1. by left.
Qed.

Section Fold.
Context {A T : Type} (f : World * Moves → A → World * Moves)
        (key : A → T) (tag : list (list Z) → T) (R : list (list Z) → Prop).

Lemma foldl_Covered (l : list A) (D : list (list Z) → Prop) (st : World * Moves) :
  (∀ a st D', a ∈ l → Covered D' st.2 → (∀ p, R p → tag p = key a → ¬ D' p) →
     Covered (λ p, D' p ∨ (R p ∧ tag p = key a)) (f st a).2) →
  NoDup (key <$> l) →
  (∀ p a, a ∈ l → R p → tag p = key a → ¬ D p) →
  Covered D st.2 →
  Covered (λ p, D p ∨ (R p ∧ ∃ a, a ∈ l ∧ tag p = key a)) (foldl f st l).2.
Proof.
  revert D st. induction l as [|a l IH]; intros D st Hstep Hnd Hfresh Hcov; simpl.
  - eapply Covered_mono; [exact Hcov | by left].
  - rewrite fmap_cons in Hnd. inversion_clear Hnd as [|?? Ha Hnd'].
    eapply Covered_mono.
    + apply (IH (λ p, D p ∨ (R p ∧ tag p = key a))).
      * intros a' st' D' Ha'. apply Hstep. by right.
      * done.
      * intros p a' Ha' HR Htag [HD|[_ Htag']].
        -- eapply Hfresh; [by right | done | done | done].
        -- apply Ha. apply list_elem_of_fmap. exists a'. split; [congruence | done].
      * apply Hstep; [by left | done |]. intros p HR Htag. eapply Hfresh; [by left|done|done].
    + intros p [[HD|[HR Htag]]|[HR [a' [Ha' Htag]]]].
      * by left.
      * right. split; [done|]. exists a. split; [by left | done].
      * right. split; [done|]. exists a'. split; [by right | done].
Qed.
End Fold.

(** *** Renames never land on an existing path

    A call is safe when it is a move to quarantine or its destination did not
    exist; [Extends w w'] says the trace of [w'] is the trace of [w] followed
    by safe calls. *)
Definition SafeCall (c : RenameCall) : Prop :=
  rcSite c ≠ Quarantine → rcDstExisted c = false.

Definition Extends (w w' : World) : Prop :=
  ∃ t, wtrace w' = wtrace w ++ t ∧ Forall SafeCall t.

Lemma Extends_refl w : Extends w w.
Proof. exists []. by rewrite app_nil_r. Qed.

Lemma Extends_trans w1 w2 w3 : Extends w1 w2 → Extends w2 w3 → Extends w1 w3.
Proof.
  intros (t1 & H1 & F1) (t2 & H2 & F2). exists (t1 ++ t2).
  split; [by rewrite H2, H1, app_assoc | by apply Forall_app].
Qed.

Lemma osRename_Extends site src dst w :
  (site ≠ Quarantine → exists_ (wfs w) dst = false) →
  Extends w (osRename site src dst w).2.
Proof.
  intros Hsafe. unfold osRename.
  destruct (Rename (wfs w) src dst); simpl; eexists; (split; [done|]);
    by apply Forall_singleton.
Qed.

Lemma osMkdirAll_Extends p w : Extends w (osMkdirAll p w).2.
Proof.
  unfold osMkdirAll. destruct (MkdirAll (wfs w) p); simpl; [|apply Extends_refl].
  exists []. by rewrite app_nil_r.
Qed.

Lemma foldl_Extends {A} (f : World * Moves → A → World * Moves) (l : list A) st :
  (∀ st a, Extends st.1 (f st a).1) → Extends st.1 (foldl f st l).1.
Proof.
  intros Hf. revert st. induction l as [|a l IH]; intros st; simpl; [apply Extends_refl|].
  eapply Extends_trans; [apply Hf | apply IH].
Qed.

Section Steps.
Context (E : Env).

Lemma archiveOne_Extends staging lib st name :
  Extends st.1 (archiveOne E staging lib st name).1.
Proof.
  destruct st as [w mv]. unfold archiveOne.
  destruct (exists_ (wfs w) _) eqn:Hex; [apply Extends_refl|].
  pose proof (osRename_Extends ArchiveMove (staging ++ [name])
                (archiveNewPath E lib name) w (λ _, Hex)) as Hext.
  destruct (osRename _ _ _ w) as [[] w']; exact Hext.
Qed.

Lemma archiveOne_Covered staging lib st name D :
  Covered D st.2 → ¬ D (staging ++ [name]) →
  Covered (λ p, D p ∨ p = staging ++ [name]) (archiveOne E staging lib st name).2.
Proof.
  destruct st as [w mv]. intros Hcov Hfresh. unfold archiveOne.
  destruct (exists_ (wfs w) _); [by apply Covered_setUnMoved|].
  destruct (osRename _ _ _ w) as [[] w']; simpl;
    [by apply Covered_setMoved | by apply Covered_setUnMoved].
Qed.

Lemma groupMove_Extends src dest q st :
  Extends st.1 (groupMove E src dest q st).1.
Proof.
  destruct st as [w mv]. unfold groupMove, timeNow.
  destruct (exists_ (wfs w) dest) eqn:Hex.
  - match goal with |- context [osRename Quarantine ?s ?d ?w0] =>
      pose proof (osRename_Extends Quarantine s d w0) as Hext;
      destruct (osRename Quarantine s d w0) as [ok w2] end.
    simpl in *. apply Hext. done.
  - pose proof (osRename_Extends GroupMove src dest w (λ _, Hex)) as Hext.
    destruct (osRename _ _ _ w) as [[] w']; exact Hext.
Qed.

Lemma groupMove_Covered src dest q st D :
  Covered D st.2 → ¬ D src →
  Covered (λ p, D p ∨ p = src) (groupMove E src dest q st).2.
Proof.
  destruct st as [w mv]. intros Hcov Hfresh. unfold groupMove, timeNow.
  destruct (exists_ (wfs w) dest).
  - match goal with |- context [osRename Quarantine ?s ?d ?w0] =>
      destruct (osRename Quarantine s d w0) as [ok w2] end.
    by apply Covered_setUnMoved.
  - destruct (osRename _ _ _ w) as [[] w']; simpl;
      [by apply Covered_setMoved | by apply Covered_setUnMoved].
Qed.
End Steps.

Definition notAgg (p : list (list Z)) : Prop := HasSuffix (Base p) aggSuffix = false.

Lemma splitMembers_snd members :
  (splitMembers members).2 = filter notAgg members.
Proof.
  unfold splitMembers.
  enough (∀ agg non, (foldl (λ '(existingAggDir, nonAggMembers) p,
            if HasSuffix (Base p) aggSuffix then (Some p, nonAggMembers)
            else (existingAggDir, nonAggMembers ++ [p])) (agg, non) members).2
          = non ++ filter notAgg members) as Hgen by apply (Hgen None []).
  induction members as [|m members IH]; intros agg non; simpl.
  - by rewrite app_nil_r.
  - rewrite filter_cons. destruct (decide (notAgg m)) as [Hn|Hn]; unfold notAgg in Hn.
    + rewrite Hn, IH. by rewrite <-app_assoc.
    + apply not_false_iff_true in Hn. by rewrite Hn, IH.
Qed.

Section Phase3.
Context (E : Env).

Definition gname (p : list (list Z)) : list Z :=
  groupNameOf (seriesGroupRules E) (TrimSuffix (Base p) aggSuffix).

Lemma aggregateGroup_Extends A q st g :
  Extends st.1 (aggregateGroup E A q st g).1.
Proof.
  destruct g as [g members]. unfold aggregateGroup.
  case_bool_decide; [apply Extends_refl|].
  destruct (splitMembers members) as [agg non].
  pose proof (osMkdirAll_Extends
    (match agg with Some p => p | None => A ++ [sanitizeName (tables E) g ++ aggSuffix] end)
    st.1) as Hmk.
  destruct (osMkdirAll _ st.1) as [[] w]; simpl in *; [|done].
  eapply Extends_trans; [exact Hmk|].
  apply (foldl_Extends _ non (w, st.2)). intros st' m. apply groupMove_Extends.
Qed.

Lemma aggregateGroup_Covered A q st g members D :
  NoDup members → (∀ m, m ∈ members → ¬ D m) → Covered D st.2 →
  Covered (λ p, D p ∨ p ∈ members) (aggregateGroup E A q st (g, members)).2.
Proof.
  intros Hnd Hfresh Hcov. unfold aggregateGroup.
  case_bool_decide; [eapply Covered_mono; [done | by left]|].
  pose proof (splitMembers_snd members) as Hsnd.
  destruct (splitMembers members) as [agg non]. simpl in Hsnd. subst non.
  destruct (osMkdirAll _ st.1) as [[] w]; simpl; [|eapply Covered_mono; [done | by left]].
  eapply Covered_mono.
  - apply (foldl_Covered _ id id (λ _, True) (filter notAgg members) D (w, st.2)).
    + intros m st' D' Hm Hc Hf. eapply Covered_mono.
      * apply groupMove_Covered; [exact Hc|]. by apply Hf.
      * intros p [?| ->]; [by left | right; by split].
    + rewrite list_fmap_id. by apply NoDup_filter.
    + intros p m [_ Hm]%list_elem_of_filter _ Heq. unfold id in Heq. subst p.
      by apply Hfresh.
    + done.
  - intros p [?|[_ (m & [_ Hm]%list_elem_of_filter & Heq)]]; [by left|].
    unfold id in Heq. subst p. by right.
Qed.

Lemma groupSeries_inv (ps : list (list (list Z))) g l :
  NoDup ps → groupSeries E ps !! g = Some l →
  NoDup l ∧ ∀ p, p ∈ l → p ∈ ps ∧ gname p = g.
Proof.
  unfold groupSeries. revert g l.
  induction ps as [|x ps IH] using rev_ind; intros g l Hnd.
  - simpl. by rewrite lookup_empty.
  - apply NoDup_app in Hnd as (Hnd & Hx & _). rewrite foldl_app. simpl.
    fold (gname x). set (groups := foldl _ ∅ ps) in *.
    assert (∀ g l, groups !! g = Some l → NoDup l ∧ ∀ p, p ∈ l → p ∈ ps ∧ gname p = g)
      as IH' by (intros; by apply IH).
    case_bool_decide as Hg.
    + destruct (decide (g = gname x)) as [->|Hne].
      * rewrite lookup_insert_eq. intros [= <-].
        destruct (groups !! gname x) as [old|] eqn:Hold; simpl.
        -- destruct (IH' _ _ Hold) as [Hndo Hino]. split.
           ++ apply NoDup_app. split; [done|]. split; [|apply NoDup_singleton].
              intros p Hp ->%list_elem_of_singleton.
              eapply Hx; [|by apply list_elem_of_singleton]. by apply Hino.
           ++ intros p [Hp| ->%list_elem_of_singleton]%elem_of_app.
              ** destruct (Hino p Hp). split; [apply elem_of_app; by left | done].
              ** split; [apply elem_of_app; right; by apply list_elem_of_singleton | done].
        -- split; [apply NoDup_singleton|].
           intros p ->%list_elem_of_singleton.
           split; [apply elem_of_app; right; by apply list_elem_of_singleton | done].
      * rewrite lookup_insert_ne by done. intros Hl.
        destruct (IH' _ _ Hl) as [? Hin]. split; [done|].
        intros p Hp. destruct (Hin p Hp). split; [apply elem_of_app; by left | done].
    + intros Hl. destruct (IH' _ _ Hl) as [? Hin]. split; [done|].
      intros p Hp. destruct (Hin p Hp). split; [apply elem_of_app; by left | done].
Qed.
End Phase3.

Section Phases.
Context (E : Env).

Lemma aggregateBucket_Extends q st A :
  Extends st.1 (aggregateBucket E q st A).1.
Proof.
  unfold aggregateBucket. destruct (ReadDir (wfs st.1) A) as [es|]; [|apply Extends_refl].
  repeat (case_bool_decide; [apply Extends_refl|]).
  apply foldl_Extends. intros st' g. apply aggregateGroup_Extends.
Qed.

Lemma aggregateBucket_Covered q st A D :
  (∀ p, p ≠ [] → DirOf p = A → ¬ D p) → Covered D st.2 →
  Covered (λ p, D p ∨ (p ≠ [] ∧ DirOf p = A)) (aggregateBucket E q st A).2.
Proof.
  intros Hfresh Hcov. unfold aggregateBucket.
  destruct (ReadDir (wfs st.1) A) as [es|] eqn:Hrd;
    [|eapply Covered_mono; [done | by left]].
  repeat (case_bool_decide; [eapply Covered_mono; [done | by left]|]).
  set (seriesPaths := (λ name, A ++ [name]) <$> dirNames es).
  assert (NoDup seriesPaths) as Hnd.
  { apply NoDup_fmap_2; [|by eapply dirNames_NoDup, ReadDir_NoDup].
    intros x y Hxy. by apply app_inv_head in Hxy as [= ->]. }
  assert (∀ p, p ∈ seriesPaths → p ≠ [] ∧ DirOf p = A) as Hshape.
  { intros p (n & -> & _)%list_elem_of_fmap. split; [by destruct A | apply DirOf_snoc]. }
  eapply Covered_mono.
  - apply (foldl_Covered _ fst (gname E) (λ p, p ∈ seriesPaths)
             (rangeMap (order E) 3 (groupSeries E seriesPaths)) D st).
    + intros [g ms] st' D' Hin Hc Hf. apply rangeMap_elem in Hin.
      destruct (groupSeries_inv E _ _ _ Hnd Hin) as [Hndm Hms].
      eapply Covered_mono.
      * apply aggregateGroup_Covered; [done| |done].
        intros m Hm. destruct (Hms m Hm). by apply Hf.
      * intros p [?|Hp]; [by left|]. right. by apply Hms.
    + apply rangeMap_NoDup_fst.
    + intros p a _ Hp _. destruct (Hshape p Hp). by apply Hfresh.
    + done.
  - intros p [?|[Hp _]]; [by left|]. right. by apply Hshape.
Qed.

Lemma bucketTasks_NoDup lib es : NoDup (Name <$> es) → NoDup (bucketTasks lib es).
Proof.
  intros Hnd. unfold bucketTasks.
  rewrite (list_fmap_compose Name (λ n, lib ++ [n])).
  apply NoDup_fmap_2.
  - intros x y Hxy. by apply app_inv_head in Hxy as [= ->].
  - eapply sublist_NoDup; [exact Hnd|]. apply fmap_sublist, sublist_filter.
Qed.

Definition inLibrary (lib p : list (list Z)) : Prop := ∃ b n, p = lib ++ [b; n].
Definition inStaging (staging p : list (list Z)) : Prop := p ≠ [] ∧ DirOf p = staging.

Lemma phase3_Extends lib q w :
  Extends w (phase3_aggregateWithinArchiveFolders E lib q w).1.
Proof.
  unfold phase3_aggregateWithinArchiveFolders.
  apply (foldl_Extends _ _ (w, noMoves)). intros st A. apply aggregateBucket_Extends.
Qed.

Lemma phase3_Covered lib q w :
  Covered (inLibrary lib) (phase3_aggregateWithinArchiveFolders E lib q w).2.
Proof.
  unfold phase3_aggregateWithinArchiveFolders.
  set (archiveDirs := match ReadDir (wfs w) lib with Ok es => es | Err _ => [] end).
  assert (NoDup (Name <$> archiveDirs)) as Hnd.
  { unfold archiveDirs. destruct (ReadDir (wfs w) lib) eqn:Hrd;
      [by eapply ReadDir_NoDup | apply NoDup_nil_2]. }
  eapply Covered_mono.
  - apply (foldl_Covered _ id DirOf (λ p, p ≠ [])
             (permute (order E) 4 _ (bucketTasks lib archiveDirs)) (λ _, False) (w, noMoves)).
    + intros A st D' _ Hc Hf. apply aggregateBucket_Covered; [|done].
      intros p Hp HA. by apply Hf.
    + rewrite list_fmap_id, permute_perm. by apply bucketTasks_NoDup.
    + intros ? ? ? ? ? [].
    + apply Covered_noMoves.
  - intros p [[]|[Hp (A & HA & Hdir)]]. unfold id in Hdir.
    rewrite permute_perm in HA. apply list_elem_of_fmap in HA as (e & -> & _).
    exists (Name e), (Base p). rewrite (path_snoc p Hp) at 1. rewrite Hdir.
    by rewrite <-app_assoc.
Qed.

Lemma phase2_Extends staging lib w :
  Extends w (phase2_archiveStagingFolders E staging lib w).1.1.
Proof.
  unfold phase2_archiveStagingFolders.
  destruct (ReadDir (wfs w) staging) as [es|[]]; simpl; try apply Extends_refl.
  apply (foldl_Extends _ _ (w, noMoves)). intros st n. apply archiveOne_Extends.
Qed.

Lemma phase2_Covered staging lib w :
  Covered (inStaging staging) (phase2_archiveStagingFolders E staging lib w).1.2.
Proof.
  unfold phase2_archiveStagingFolders.
  destruct (ReadDir (wfs w) staging) as [es|[]] eqn:Hrd; simpl; try apply Covered_noMoves.
  eapply Covered_mono.
  - apply (foldl_Covered _ id Base (inStaging staging)
             (permute (order E) 2 _ (dirNames es)) (λ _, False) (w, noMoves)).
    + intros n st D' _ Hc Hf. eapply Covered_mono.
      * apply archiveOne_Covered; [exact Hc|]. apply Hf.
        -- split; [by destruct staging | apply DirOf_snoc].
        -- apply Base_snoc.
      * intros p [?| ->]; [by left|]. right. split; [|apply Base_snoc].
        split; [by destruct staging | apply DirOf_snoc].
    + rewrite list_fmap_id, permute_perm. by eapply dirNames_NoDup, ReadDir_NoDup.
    + intros ? ? ? ? ? [].
    + apply Covered_noMoves.
  - by intros p [[]|[Hp _]].
Qed.

Lemma mkdirBuckets_Extends lib w : Extends w (mkdirBuckets lib w).2.
Proof.
  unfold mkdirBuckets.
  enough (∀ l ok w0, Extends w w0 →
            Extends w (foldl (λ '(ok, w) name,
               if ok : bool then osMkdirAll (lib ++ [name]) w else (false, w)) (ok, w0) l).2)
    as Hgen by (apply Hgen, Extends_refl).
  induction l as [|n l IH]; intros ok w0 Hw0; simpl; [done|].
  destruct ok.
  - pose proof (osMkdirAll_Extends (lib ++ [n]) w0) as Hmk.
    destruct (osMkdirAll (lib ++ [n]) w0) as [ok' w']. apply IH.
    by eapply Extends_trans.
  - by apply IH.
Qed.

Lemma phase1_Extends lib w : Extends w (phase1_checkAndPrepareStructure E lib w).2.
Proof.
  unfold phase1_checkAndPrepareStructure.
  pose proof (osMkdirAll_Extends lib w) as H1.
  destruct (osMkdirAll lib w) as [[] w1]; simpl in *; [|done].
  assert (∃ ok w2, (match Stat (wfs w1) lib with
                    | Err ENOENT => osMkdirAll lib w1 | _ => (true, w1) end) = (ok, w2)
                   ∧ Extends w w2) as (ok & w2 & -> & H2).
  { destruct (Stat (wfs w1) lib) as [|[]]; try by eexists _, _.
    pose proof (osMkdirAll_Extends lib w1) as Hmk.
    destruct (osMkdirAll lib w1) as [ok w2]. exists ok, w2. split; [done|].
    by eapply Extends_trans. }
  destruct ok; simpl; [|done].
  destruct (ReadDir (wfs w2) lib); [|done].
  destruct (forallb _ _); [|done].
  eapply Extends_trans; [exact H2 | apply mkdirBuckets_Extends].
Qed.

Lemma AggregateAndArchive_inv staging lib w :
  let out := AggregateAndArchive E staging lib w in
  Extends w (world out)
  ∧ Covered (inStaging staging) (archiveMoves out)
  ∧ Covered (inLibrary lib) (groupMoves out)
  ∧ ∀ cl, changelog out = Some cl →
      cl = composeChangelog E (movedSet (archiveMoves out)) (movedSet (groupMoves out))
             (unMovedSet (groupMoves out)).
Proof.
  unfold AggregateAndArchive.
  pose proof (phase1_Extends lib w) as H1.
  destruct (phase1_checkAndPrepareStructure E lib w) as [[] w1]; simpl in *.
  2:{ split; [exact H1|]. split; [apply Covered_noMoves|].
      split; [apply Covered_noMoves | done]. }
  pose proof (phase2_Extends staging lib w1) as H2.
  pose proof (phase2_Covered staging lib w1) as C2.
  destruct (phase2_archiveStagingFolders E staging lib w1) as [[w2 archive] []]; simpl in *.
  - pose proof (phase3_Extends lib (QuarantinePath E) w2) as H3.
    pose proof (phase3_Covered lib (QuarantinePath E) w2) as C3.
    destruct (phase3_aggregateWithinArchiveFolders E lib (QuarantinePath E) w2)
      as [w3 group]; simpl in *.
    split; [eapply Extends_trans; [exact H1|]; eapply Extends_trans; [exact H2 | exact H3]|].
    split; [exact C2|]. split; [exact C3|]. by intros cl [= <-].
  - split; [by eapply Extends_trans|]. split; [exact C2|].
    split; [apply Covered_noMoves | done].
Qed.
End Phases.

(** *** Conflicts *)

Lemma groupMove_on_conflict (E : Env) (src dest q : list (list Z)) (w : World) (mv : Moves) :
  exists_ (wfs w) dest = true →
  let quarantineDest := q ++ [Base src ++ lit "_" ++ itoa (UnixNano E (wclock w))] in
  let st' := groupMove E src dest q (w, mv) in
  st'.2 = setUnMoved src mv
  ∧ wtrace st'.1
    = wtrace w ++ [mkRenameCall Quarantine src quarantineDest
                     (exists_ (wfs w) quarantineDest)
                     (isOk (Rename (wfs w) src quarantineDest))]
  ∧ wfs st'.1 = match Rename (wfs w) src quarantineDest with
                | Ok s' => s'
                | Err _ => wfs w
                end.
Proof.
  intros Hex. simpl. unfold groupMove, timeNow, osRename. rewrite Hex. simpl.
  by destruct (Rename (wfs w) src _) as [s'|e] eqn:Hren.
Qed.

Lemma archiveOne_on_conflict (E : Env) (staging lib : list (list Z)) (w : World) (mv : Moves)
    (name : gostring) :
  exists_ (wfs w) (lib ++ [archiveDirName E name; name]) = true →
  archiveOne E staging lib (w, mv) name = (w, setUnMoved (staging ++ [name]) mv).
Proof. intros Hex. unfold archiveOne, archiveNewPath. by rewrite Hex. Qed.

Lemma unmoved_not_in_changelog (E : Env) (staging lib : list (list Z)) (w : World)
    (cl : gmap (list (list Z)) (list (list Z))) (src : list (list Z)) :
  (∀ b, staging ≠ lib ++ [b]) →
  let out := AggregateAndArchive E staging lib w in
  changelog out = Some cl →
  src ∈ dom (unMovedSet (archiveMoves out)) ∨ src ∈ dom (unMovedSet (groupMoves out)) →
  cl !! src = None.
Proof.
  intros Hstaging out Hcl Hsrc.
  destruct (AggregateAndArchive_inv E staging lib w) as (_ & [Ca Da] & [Cg Dg] & Hcompose).
  fold out in Ca, Da, Cg, Dg, Hcompose. rewrite (Hcompose cl Hcl), composeChangelog_lookup.
  destruct (decide (_ ∧ _)) as [|Hnot]; [done|].
  apply lookup_union_None. destruct Hsrc as [Hsrc|Hsrc].
  - split.
    + apply not_elem_of_dom. intros Hg.
      destruct (Cg src (or_introl Hg)) as (b & n & ->).
      destruct (Ca _ (or_intror Hsrc)) as [_ Hdir].
      apply (Hstaging b). rewrite <-Hdir.
      change [b; n] with ([b] ++ [n]). by rewrite app_assoc, DirOf_snoc.
    + apply not_elem_of_dom. intros Ha. by apply (Da src).
  - split.
    + apply not_elem_of_dom. intros Hg. by apply (Dg src).
    + apply not_elem_of_dom. intros Ha. by apply Hnot.
Qed.

(** C4, as the code has it.  When the staging directory is not a directory
    right below the library root, phase 2 and phase 3 never rename onto a path
    that exists: every rename the run makes towards a computed destination (a
    bucket path in phase 2, a path inside the [_agg] directory in phase 3)
    found it absent.  When the destination of a staging folder exists, phase 2
    touches nothing and records the source as unmoved; when the destination
    of a member exists, phase 3 records the source as unmoved and makes
    exactly one call of [os.Rename], of the source to
    [<quarantine>/<name>_<nanoseconds>]: the source is there afterwards when
    that call succeeds, and nothing has changed when it fails.  A source in
    either unmoved set is not a key of the final changelog. *)
Theorem C4_conflicts_never_overwrite (E : Env) (staging lib : list (list Z))
    (disk : gmap (list (list Z)) node) :
  (∀ b, staging ≠ lib ++ [b]) →
  let out := AggregateAndArchive E staging lib (mkWorld disk 0 []) in
  (∀ c, c ∈ wtrace (world out) → rcSite c ≠ Quarantine → rcDstExisted c = false)
  ∧ (∀ w mv name,
       exists_ (wfs w) (lib ++ [archiveDirName E name; name]) = true →
       archiveOne E staging lib (w, mv) name = (w, setUnMoved (staging ++ [name]) mv))
  ∧ (∀ w mv src dest q,
       exists_ (wfs w) dest = true →
       let quarantineDest := q ++ [Base src ++ lit "_" ++ itoa (UnixNano E (wclock w))] in
       let st' := groupMove E src dest q (w, mv) in
       st'.2 = setUnMoved src mv
       ∧ wtrace st'.1
         = wtrace w ++ [mkRenameCall Quarantine src quarantineDest
                          (exists_ (wfs w) quarantineDest)
                          (isOk (Rename (wfs w) src quarantineDest))]
       ∧ wfs st'.1 = match Rename (wfs w) src quarantineDest with
                     | Ok s' => s'
                     | Err _ => wfs w
                     end)
  ∧ (∀ cl src,
       changelog out = Some cl →
       src ∈ dom (unMovedSet (archiveMoves out)) ∨ src ∈ dom (unMovedSet (groupMoves out)) →
       cl !! src = None).
Proof.
  intros Hstaging out. split; [|split; [|split]].
  - destruct (AggregateAndArchive_inv E staging lib (mkWorld disk 0 []))
      as ((t & Ht & Hsafe) & _).
    fold out in Ht. simpl in Ht. rewrite Ht. intros c Hc.
    by apply (proj1 (Forall_forall _ _) Hsafe).
  - intros w mv name. apply archiveOne_on_conflict.
  - intros w mv src dest q. apply groupMove_on_conflict.
  - intros cl src. by apply unmoved_not_in_changelog.
Qed.

(** *** The bucket of a folder *)

Definition isAlnum (U : UnicodeTables) (r : rune) : bool := IsLetter U r || IsNumber U r.

(** The first letter or digit of a string, if it has one. *)
Definition firstLetterOrDigit (U : UnicodeTables) (s : gostring) : option Z :=
  head (filter (λ r, Is_true (isAlnum U r)) s).

(** The rule as the specification words it: the first letter or digit of the
    transliterated name, upper-cased; [#] when there is none. *)
Definition claimedBucket (E : Env) (folderName : gostring) : gostring :=
  match firstLetterOrDigit (tables E) (Unidecode E folderName) with
  | Some r => [ToUpper (tables E) r]
  | None => lit "#"
  end.

(** The rule as the code has it: that character only when it is one of
    [A]..[Z], and [#] in every other case. *)
Definition bucketOf (E : Env) (folderName : gostring) : gostring :=
  match firstLetterOrDigit (tables E) (Unidecode E folderName) with
  | Some r => if isUpperAZ (ToUpper (tables E) r) then [ToUpper (tables E) r] else lit "#"
  | None => lit "#"
  end.

Lemma findFirstAlphaNum_first (E : Env) (s : gostring) :
  findFirstAlphaNum E s
  = match firstLetterOrDigit (tables E) s with
    | Some r => ToUpper (tables E) r
    | None => 35
    end.
Proof.
  unfold firstLetterOrDigit. induction s as [|r s IH]; [done|].
  rewrite filter_cons. cbn [findFirstAlphaNum].
  change (IsLetter (tables E) r || IsNumber (tables E) r) with (isAlnum (tables E) r).
  destruct (isAlnum (tables E) r) eqn:Hr.
  - rewrite decide_True; [done | exact I].
  - rewrite decide_False; [exact IH | exact id].
Qed.

Lemma archiveChars_enum : archiveChars = (Z.of_nat <$> seq 65 26) ++ [35].
Proof. reflexivity. Qed.

Lemma upper_in_bucketNames (c : Z) : isUpperAZ c = true → [c] ∈ bucketNames.
Proof.
  unfold isUpperAZ, between. intros [Hlo Hhi]%andb_true_iff.
  apply Z.leb_le in Hlo, Hhi.
  unfold bucketNames. apply list_elem_of_fmap. exists c. split; [done|].
  rewrite archiveChars_enum. apply elem_of_app. left.
  apply list_elem_of_fmap. exists (Z.to_nat c). split; [lia|].
  apply elem_of_seq. lia.
Qed.

Lemma hash_in_bucketNames : lit "#" ∈ bucketNames.
Proof.
  unfold bucketNames. apply list_elem_of_fmap. exists 35. split; [done|].
  rewrite archiveChars_enum. apply elem_of_app. right. by left.
Qed.

Lemma archiveDirName_bucketOf (E : Env) (folderName : gostring) :
  archiveDirName E folderName = bucketOf E folderName.
Proof.
  unfold archiveDirName, bucketOf. rewrite findFirstAlphaNum_first.
  by destruct (firstLetterOrDigit (tables E) (Unidecode E folderName)).
Qed.

Lemma archiveDirName_in_buckets (E : Env) (folderName : gostring) :
  archiveDirName E folderName ∈ bucketNames.
Proof.
  unfold archiveDirName.
  destruct ((65 <=? _) && (_ <=? 90)) eqn:Hc.
  - by apply upper_in_bucketNames.
  - apply hash_in_bucketNames.
Qed.

(** One folder of the staging directory stays and is recorded as unmoved
    when [<library>/<bucket>/<name>] exists; otherwise it is renamed to that
    path and recorded as moved, or, when the rename fails, stays and is
    recorded as unmoved. *)
Lemma archiveOne_cases (E : Env) (staging lib : list (list Z)) (w : World) (mv : Moves)
    (folderName : gostring) :
  let oldPath := staging ++ [folderName] in
  let newPath := lib ++ [archiveDirName E folderName; folderName] in
  let st' := archiveOne E staging lib (w, mv) folderName in
  (exists_ (wfs w) newPath = true → wfs st'.1 = wfs w ∧ st'.2 = setUnMoved oldPath mv)
  ∧ (exists_ (wfs w) newPath = false →
     match Rename (wfs w) oldPath newPath with
     | Ok s' => wfs st'.1 = s' ∧ st'.2 = setMoved oldPath newPath mv
     | Err _ => wfs st'.1 = wfs w ∧ st'.2 = setUnMoved oldPath mv
     end).
Proof.
  simpl. unfold archiveOne, archiveNewPath, osRename.
  destruct (exists_ (wfs w) _) eqn:Hex; (split; [done|]); [done|]. intros _.
  by destruct (Rename (wfs w) _ _) as [s'|e] eqn:Hren.
Qed.

(** C7, as the code has it.  The bucket of a staging folder is the first
    letter or digit of its transliterated name, upper-cased, when that is one
    of [A]..[Z]; it is [#] when that character is anything else (a digit, a
    letter outside [A]..[Z]) or when the name has no letter or digit.  It is
    always one of the 27 directories of phase 1.  When
    [<library>/<bucket>/<name>] exists the folder stays and is recorded as
    unmoved; when it does not, the folder is renamed to that path and
    recorded as moved, unless the rename fails, in which case it stays and is
    recorded as unmoved. *)
Theorem C7_bucket_of_staging_folder (E : Env) (staging lib : list (list Z)) (w : World)
    (mv : Moves) (folderName : gostring) :
  let bucket := archiveDirName E folderName in
  let oldPath := staging ++ [folderName] in
  let newPath := lib ++ [bucket; folderName] in
  let st' := archiveOne E staging lib (w, mv) folderName in
  bucket = bucketOf E folderName
  ∧ bucket ∈ bucketNames
  ∧ (exists_ (wfs w) newPath = true → wfs st'.1 = wfs w ∧ st'.2 = setUnMoved oldPath mv)
  ∧ (exists_ (wfs w) newPath = false →
     match Rename (wfs w) oldPath newPath with
     | Ok s' => wfs st'.1 = s' ∧ st'.2 = setMoved oldPath newPath mv
     | Err _ => wfs st'.1 = wfs w ∧ st'.2 = setUnMoved oldPath mv
     end).
Proof.
  simpl. split; [apply archiveDirName_bucketOf|].
  split; [apply archiveDirName_in_buckets|]. apply archiveOne_cases.
Qed.

(** *** A run on ASCII names *)

(** The rule [^(?P<group>.+?)\s*(\d+)$] of the shipped configuration, worked
    out by hand: the shortest non-empty prefix without a line feed after
    which only white space and then at least one digit follow. *)
Definition isReSpace (r : Z) : bool := bool_decide (r ∈ [9; 10; 12; 13; 32]).

Definition numberTail (t : gostring) : option (list Z) :=
  let d := dropWhile isReSpace t in
  if bool_decide (d ≠ []) && forallb isDigit09 d then Some d else None.

Fixpoint textAndNumber (pre rest : gostring) : list (list Z) :=
  match rest with
  | [] => []
  | r :: rest' =>
      if r =? 10 then [] else
      match numberTail rest' with
      | Some d => [pre ++ rest; pre ++ [r]; d]
      | None => textAndNumber (pre ++ [r]) rest'
      end
  end.

Definition textAndNumberRule : compiledRule :=
  mkRule (lit "text+number") (textAndNumber []) [[]; lit "group"; []].

Definition mkPath (l : list string) : list (list Z) := lit <$> l.

(** On ASCII text go-unidecode returns its argument without the character
    U+007F, which it drops. *)
Definition asciiEnv : Env :=
  mkEnv asciiTables (filter (λ r, r ≠ 127)) [textAndNumberRule] (mkPath ["quarantine"])
        (λ n, 1700000000000000000 + Z.of_nat n) inOrder.

(** Two new series in the staging directory; the library already holds
    [Foo 1] inside [F/Foo_agg] from an earlier scan. *)
Definition rescanDisk : gmap (list (list Z)) node :=
  addFile (mkPath ["staging"; "Foo 1"; "a_001.jpg"]) [1]
  (addFile (mkPath ["staging"; "Foo 2"; "b_001.jpg"]) [2]
  (addFile (mkPath ["library"; "F"; "Foo_agg"; "Foo 1"; "a_000.jpg"]) [0]
  (addDir (mkPath ["quarantine"]) ∅))).

Definition rescan : Outcome :=
  AggregateAndArchive asciiEnv (mkPath ["staging"]) (mkPath ["library"]) (mkWorld rescanDisk 0 []).

(** C7, as stated, fails on a name that starts with a digit: the claimed
    bucket is that digit, the code's bucket is [#]. *)
Lemma C7_digit_initial_goes_to_hash :
  claimedBucket asciiEnv (lit "2024 Summer") = lit "2"
  ∧ archiveDirName asciiEnv (lit "2024 Summer") = lit "#".
Proof. split; reflexivity. Qed.

(** C1.  In the run [rescan], phase 2 archives [staging/Foo 1] as
    [library/F/Foo 1]; phase 3 finds [library/F/Foo_agg/Foo 1] taken, records
    [library/F/Foo 1] in its un-moved set and moves it to the quarantine
    directory.  The set difference compares the sources of phase 2 with the
    sources of phase 3, so the phase-2 entry stays in the changelog although
    its destination is in the un-moved set and no longer exists. *)
Lemma C1_changelog_keeps_unmoved_destination :
  ∃ cl,
    changelog rescan = Some cl
    ∧ cl !! mkPath ["staging"; "Foo 1"] = Some (mkPath ["library"; "F"; "Foo 1"])
    ∧ unMovedSet (groupMoves rescan) !! mkPath ["library"; "F"; "Foo 1"] = Some true
    ∧ exists_ (wfs (world rescan)) (mkPath ["library"; "F"; "Foo 1"]) = false
    ∧ exists_ (wfs (world rescan)) (mkPath ["quarantine"; "Foo 1_1700000000000000000"]) = true.
Proof.
  exists (default ∅ (changelog rescan)).
  split; [|split; [|split; [|split]]]; apply (bool_decide_unpack _); vm_compute; exact I.
Qed.

(** C3.  The four loops compose, in any order, the join of the two maps
    without the shared keys of [archiveMoved] and [groupUnMoved].  The keys
    of [archiveMoved] are paths of the staging directory and those of
    [groupUnMoved] are paths of the library, so this is not the algebra of the
    specification: in the run [rescan] the move of [staging/Foo 1] to
    [library/F/Foo 1], whose destination phase 3 recorded as un-moved, is an
    entry of the changelog returned (three entries) and is not one of
    [(archiveMoved ∪ groupMoved) \ (archiveMoved ∩ groupUnMoved)] (two
    entries). *)
Theorem C3_changelog_is_not_the_algebra :
  (∀ (E : Env) (archiveMoved groupMoved : gmap (list (list Z)) (list (list Z)))
     (groupUnMoved : gmap (list (list Z)) bool),
     composeChangelog E archiveMoved groupMoved groupUnMoved
     = composedByKeys archiveMoved groupMoved groupUnMoved)
  ∧ (let archiveMoved := movedSet (archiveMoves rescan) in
     let groupMoved := movedSet (groupMoves rescan) in
     let groupUnMoved := unMovedSet (groupMoves rescan) in
     let returned := composeChangelog asciiEnv archiveMoved groupMoved groupUnMoved in
     changelog rescan = Some returned
     ∧ archiveMoved !! mkPath ["staging"; "Foo 1"] = Some (mkPath ["library"; "F"; "Foo 1"])
     ∧ groupUnMoved !! mkPath ["library"; "F"; "Foo 1"] = Some true
     ∧ returned !! mkPath ["staging"; "Foo 1"] = Some (mkPath ["library"; "F"; "Foo 1"])
     ∧ changelogAlgebra archiveMoved groupMoved groupUnMoved !! mkPath ["staging"; "Foo 1"] = None
     ∧ size returned = 3%nat
     ∧ size (changelogAlgebra archiveMoved groupMoved groupUnMoved) = 2%nat).
Proof.
  split; [intros; apply composeChangelog_by_keys|].
  cbv zeta. split; [|split; [|split; [|split; [|split; [|split]]]]];
    apply (bool_decide_unpack _); vm_compute; exact I.
Qed.

(** The staging directory is the bucket [S] of the library; the folders
    [Foo 1] and [Foo 2] in it are already in the bucket [F]. *)
Definition stagingInLibraryDisk : gmap (list (list Z)) node :=
  addFile (mkPath ["library"; "S"; "Foo 1"; "a_001.jpg"]) [1]
  (addFile (mkPath ["library"; "S"; "Foo 2"; "b_001.jpg"]) [2]
  (addFile (mkPath ["library"; "F"; "Foo 1"; "a_000.jpg"]) [3]
  (addFile (mkPath ["library"; "F"; "Foo 2"; "b_000.jpg"]) [4]
  (addDir (mkPath ["quarantine"]) ∅)))).

Definition stagingInLibrary : Outcome :=
  AggregateAndArchive asciiEnv (mkPath ["library"; "S"]) (mkPath ["library"])
                      (mkWorld stagingInLibraryDisk 0 []).

(** C4, as stated, fails when the staging directory is a bucket of the
    library: the destination [library/F/Foo 1] of [library/S/Foo 1] exists, so
    phase 2 records the source as unmoved; phase 3 then merges the folders of
    the bucket [S], and the same source is a key of the final changelog. *)
Lemma C4_unmoved_source_in_changelog :
  exists_ stagingInLibraryDisk (mkPath ["library"; "F"; "Foo 1"]) = true
  ∧ archiveNewPath asciiEnv (mkPath ["library"]) (lit "Foo 1") = mkPath ["library"; "F"; "Foo 1"]
  ∧ unMovedSet (archiveMoves stagingInLibrary) !! mkPath ["library"; "S"; "Foo 1"] = Some true
  ∧ ∃ cl, changelog stagingInLibrary = Some cl
          ∧ cl !! mkPath ["library"; "S"; "Foo 1"]
            = Some (mkPath ["library"; "S"; "Foo_agg"; "Foo 1"]).
Proof.
  split; [|split; [|split]]; [apply (bool_decide_unpack _); vm_compute; exact I ..|].
  exists (default ∅ (changelog stagingInLibrary)).
  split; apply (bool_decide_unpack _); vm_compute; exact I.
Qed.

(** C4 on the run [rescan]: the member that phase 3 could not merge,
    [library/F/Foo 1], is not a source of the changelog, and no rename of the
    run towards a bucket or an [_agg] directory found its destination taken. *)
Lemma C4_conflicts_never_overwrite_rescan :
  (∀ b, mkPath ["staging"] ≠ mkPath ["library"] ++ [b])
  ∧ (∀ cl, changelog rescan = Some cl → cl !! mkPath ["library"; "F"; "Foo 1"] = None)
  ∧ (∀ c, c ∈ wtrace (world rescan) → rcSite c ≠ Quarantine → rcDstExisted c = false).
Proof.
  assert (∀ b, mkPath ["staging"] ≠ mkPath ["library"] ++ [b]) as Hstaging by done.
  split; [exact Hstaging|].
  destruct (C4_conflicts_never_overwrite asciiEnv (mkPath ["staging"]) (mkPath ["library"])
              rescanDisk Hstaging) as (Htrace & _ & _ & Hkeys).
  split; [|exact Htrace].
  intros cl Hcl. apply (Hkeys cl _ Hcl). right. apply elem_of_dom. exists true.
  by vm_compute.
Defined.

End Aggregator.

(** ** The preprocessor ([pkg/scanner/preprocessor.go]) *)

Module Preprocessor.
Import GoText FS GoRuntime.

Definition maxRepairAttempts : nat := 5.

(** [fileGroup]; an unset [basePath] (the empty string in Go) is [None]. *)
Record fileGroup := mkGroup {
  basePath : option (list (list Z));
  numberedFiles : gmap Z (list (list Z));
}.

(** What the preprocessor takes from outside the repository: the Unicode
    tables, whether [image.Decode] accepts a sequence of bytes, SHA-256 (as
    the hexadecimal digest [hasher.CalculateSHA256] returns), and the order of
    [range] loops and worker scheduling. *)
Record Env := mkEnv {
  tables : UnicodeTables;
  decodes : list Z → bool;
  sha256 : list Z → list Z;
  order : Order;
}.

(** The lines the preprocessor writes to its log. *)
Inductive LogLine :=
| LogRepairMode (baseName : list Z)
| LogRepairAbort (candidateName : list Z)
| LogFoundHealthy (candidateName : list Z)
| LogRemoveFailed
| LogRenameFailed
| LogRepaired (baseName candidateName : list Z)
| LogCandidateDamaged (candidateName : list Z)
| LogNoHealthyCopy (baseName : list Z)
| LogDedupMode (baseName : list Z)
| LogBaseHashFailed
| LogCopyHashFailed (name : list Z)
| LogDuplicateRemoved (name : list Z)
| LogDistinctKept (name : list Z).

Record World := mkWorld {
  wfs : gmap (list (list Z)) node;
  wlog : list LogLine;
}.

Definition logf (l : LogLine) (w : World) : World := mkWorld (wfs w) (wlog w ++ [l]).

(** *** Scanning and grouping *)

Definition imageExtensions : list (list Z) := lit <$> [".jpg"; ".jpeg"; ".png"; ".gif"]%string.

Fixpoint takeWhile {A} (f : A → bool) (l : list A) : list A :=
  match l with
  | [] => []
  | a :: l' => if f a then a :: takeWhile f l' else []
  end.

(** [\w] and [\d] of Go's regular expressions are ASCII classes. *)
Definition isWord (r : Z) : bool := isDigit09 r || isUpperAZ r || isLowerAZ r || (r =? 95).

(** The last group of [^(.*?)(?: \((\d+)\))?(\.\w+)$]: the name ends with a
    dot followed by word characters only, so that dot is the last one. *)
Definition splitExt (name : gostring) : option (list Z * list Z) :=
  let ext := extOf name in
  if bool_decide (1 < length ext)%nat && forallb isWord (drop 1 ext)
  then Some (take (length name - length ext) name, ext)
  else None.

(** The optional group: [pre] ends with [ (digits)] or it does not; the lazy
    [(.*?)] takes the shorter base when both readings match. *)
Definition splitNumber (pre : gostring) : list Z * list Z :=
  match reverse pre with
  | 41 :: rest =>
      let digits := takeWhile isDigit09 rest in
      match digits, drop (length digits) rest with
      | _ :: _, 40 :: 32 :: base => (reverse base, reverse digits)
      | _, _ => (pre, [])
      end
  | _ => (pre, [])
  end.

(** [re.FindStringSubmatch(fileName)], as [(baseName, numberStr, ext)];
    [.] does not match a line feed. *)
Definition familyRegexp (fileName : gostring) : option (list Z * list Z * list Z) :=
  match splitExt fileName with
  | Some (pre, ext) =>
      if bool_decide (10 ∈ pre) then None
      else let '(baseName, numberStr) := splitNumber pre in Some (baseName, numberStr, ext)
  | None => None
  end.

(** [strconv.Atoi] on a string of digits; a value beyond [int64] comes back
    as the largest [int64] (the range error is dropped by the caller). *)
Definition Atoi (digits : gostring) : Z :=
  Z.min (foldl (λ acc d, acc * 10 + (d - 48)) 0 digits) (2 ^ 63 - 1).

Section WithEnv.
Context (E : Env).

Definition isImageExtension (p : path) : bool :=
  bool_decide (strToLower (tables E) (Ext p) ∈ imageExtensions).

Definition groupKeyOf (p : path) (baseName ext : gostring) : list (list Z) :=
  strToLower (tables E) <$> (DirOf p ++ [baseName ++ ext]).

(** The callback of [filepath.WalkDir] in [scanAndGroupFiles], for a file. *)
Definition scanFile (groups : gmap (list (list Z)) fileGroup) (p : list (list Z))
  : gmap (list (list Z)) fileGroup :=
  if negb (isImageExtension p) then groups else
  match familyRegexp (Base p) with
  | None => groups
  | Some (baseName, numberStr, ext) =>
      let groupKey := groupKeyOf p baseName ext in
      let g := default (mkGroup None ∅) (groups !! groupKey) in
      if bool_decide (numberStr = []) then
        <[groupKey := mkGroup (Some p) (numberedFiles g)]> groups
      else
        let num := Atoi numberStr in
        if 0 <? num
        then <[groupKey := mkGroup (basePath g) (<[num := p]> (numberedFiles g))]> groups
        else <[groupKey := g]> groups
  end.

Definition scanAndGroupFiles (s : fs) (rootDir : path)
  : result (gmap (list (list Z)) fileGroup) :=
  match WalkDirFiles s rootDir with
  | Ok files => Ok (foldl scanFile ∅ files)
  | Err e => Err e
  end.

(** *** Reconciling one family *)

Definition isImageFileDamaged (s : fs) (p : path) : bool :=
  match ReadFile s p with
  | Ok d => negb (decodes E d)
  | Err _ => true
  end.

Definition CalculateSHA256 (s : fs) (p : path) : result (list Z) :=
  match ReadFile s p with
  | Ok d => Ok (sha256 E d)
  | Err e => Err e
  end.

Definition candidateName (b : path) (i : Z) : list Z :=
  TrimSuffix (Base b) (Ext b) ++ lit " (" ++ itoa i ++ lit ")" ++ Ext b.

Definition candidatePath (b : path) (i : Z) : list (list Z) :=
  DirOf b ++ [candidateName b i].

Definition foundInMap (numbered : gmap Z (list (list Z))) (p : path) : bool :=
  bool_decide (p ∈ (map_to_list numbered).*2).

(** The body of [if !isImageFileDamaged(candidatePath)]. *)
Definition executeRepair (b candidate : path) (i : Z) (w : World) : World :=
  let w := logf (LogFoundHealthy (candidateName b i)) w in
  let removed :=
    match Remove (wfs w) b with
    | Ok s' => Some (mkWorld s' (wlog w))
    | Err ENOENT => Some w
    | Err _ => None
    end in
  match removed with
  | None => logf LogRemoveFailed w
  | Some w1 =>
      match Rename (wfs w1) candidate b with
      | Err _ => logf LogRenameFailed w1
      | Ok s'' => logf (LogRepaired (Base b) (candidateName b i)) (mkWorld s'' (wlog w1))
      end
  end.

(** [for i := 1; i <= maxRepairAttempts; i++], with [fuel] rounds left. *)
Fixpoint repairLoop (b : path) (numbered : gmap Z (list (list Z))) (fuel : nat) (i : Z)
    (w : World) : World :=
  match fuel with
  | O => logf (LogNoHealthyCopy (Base b)) w
  | S fuel' =>
      let candidate := candidatePath b i in
      if negb (foundInMap numbered candidate) then
        logf (LogNoHealthyCopy (Base b)) (logf (LogRepairAbort (candidateName b i)) w)
      else if negb (isImageFileDamaged (wfs w) candidate) then
        executeRepair b candidate i w
      else
        repairLoop b numbered fuel' (i + 1) (logf (LogCandidateDamaged (candidateName b i)) w)
  end.

Definition findAndExecuteRepair (b : path) (numbered : gmap Z (list (list Z))) (w : World)
  : World :=
  repairLoop b numbered maxRepairAttempts 1 (logf (LogRepairMode (Base b)) w).

(** The body of the loop over the numbered files of a healthy base. *)
Definition dedupOne (baseHash : list Z) (w : World) (numberedPath : list (list Z)) : World :=
  match CalculateSHA256 (wfs w) numberedPath with
  | Err _ => logf (LogCopyHashFailed (Base numberedPath)) w
  | Ok numberedHash =>
      if bool_decide (baseHash = numberedHash) then
        let w := logf (LogDuplicateRemoved (Base numberedPath)) w in
        match Remove (wfs w) numberedPath with
        | Ok s' => mkWorld s' (wlog w)
        | Err _ => w
        end
      else logf (LogDistinctKept (Base numberedPath)) w
  end.

(** [reconciliationWorker], the body of its loop for one group. *)
Definition reconcileGroup (w : World) (group : fileGroup) : World :=
  if bool_decide (size (numberedFiles group) = 0%nat) then w else
  match basePath group with
  | None => w
  | Some b =>
      if isImageFileDamaged (wfs w) b then findAndExecuteRepair b (numberedFiles group) w
      else
        let w := logf (LogDedupMode (Base b)) w in
        match CalculateSHA256 (wfs w) b with
        | Err _ => logf LogBaseHashFailed w
        | Ok baseHash =>
            foldl (dedupOne baseHash) w (rangeMap (order E) 2 (numberedFiles group)).*2
        end
  end.

(** [ProcessDirectory].  The groups go down a channel to the workers; they
    are handled here one after the other, in any order: the files of two
    groups are different files. *)
Definition ProcessDirectory (rootDir : path) (w : World)
  : result (list (list (list Z))) * World :=
  match scanAndGroupFiles (wfs w) rootDir with
  | Err e => (Err e, w)
  | Ok groups =>
      let w' :=
        if bool_decide (0 < size groups)%nat
        then foldl reconcileGroup w (rangeMap (order E) 1 groups).*2
        else w in
      (WalkDirFiles (wfs w') rootDir, w')
  end.

End WithEnv.

(** *** A healthy base: duplicates of the base are removed *)

Section Dedup.
Context (E : Env).

(** The numbered files of a group. *)
Definition variants (g : fileGroup) : list (list (list Z)) := (map_to_list (numberedFiles g)).*2.

(** [q] is a readable file whose digest is [h]. *)
Definition sameHashAs (s : gmap (list (list Z)) node) (h : list Z) (q : list (list Z)) : bool :=
  match ReadFile s q with
  | Ok d => bool_decide (h = sha256 E d)
  | Err _ => false
  end.

Lemma sameHashAs_agree s1 s2 h q : s1 !! q = s2 !! q → sameHashAs s1 h q = sameHashAs s2 h q.
Proof. intros H. unfold sameHashAs. by rewrite (ReadFile_agree s1 s2 q H). Qed.

Lemma dedupOne_fs h w p :
  wfs (dedupOne E h w p) = if sameHashAs (wfs w) h p then delete p (wfs w) else wfs w.
Proof.
  unfold dedupOne, sameHashAs, CalculateSHA256.
  destruct (ReadFile (wfs w) p) as [d|e] eqn:Hrd; simpl; [|done].
  case_bool_decide; simpl; [|done].
  apply ReadFile_Ok in Hrd as [_ Hp]. by rewrite (Remove_file _ _ _ Hp).
Qed.

Lemma dedup_fold_lookup h (l : list (list (list Z))) w q :
  wfs (foldl (dedupOne E h) w l) !! q
  = if decide (q ∈ l ∧ sameHashAs (wfs w) h q = true) then None else wfs w !! q.
Proof.
  revert w. induction l as [|p l IH]; intros w; cbn [foldl].
  - destruct (decide (q ∈ [] ∧ _)) as [[Hq _]|_]; [by apply elem_of_nil in Hq | done].
  - rewrite IH, dedupOne_fs. destruct (decide (q = p)) as [->|Hne].
    + destruct (sameHashAs (wfs w) h p) eqn:Hp.
      * rewrite lookup_delete_eq.
        destruct (decide (p ∈ p :: l ∧ _)) as [_|Hn]; [by destruct (decide _)|].
        destruct Hn. split; [by left | done].
      * rewrite Hp.
        destruct (decide (p ∈ l ∧ _)) as [[_ ?]|_]; [done|].
        by destruct (decide (p ∈ p :: l ∧ _)) as [[_ ?]|_].
    + assert ((if sameHashAs (wfs w) h p then delete p (wfs w) else wfs w) !! q = wfs w !! q) as Hq.
      { destruct (sameHashAs (wfs w) h p); [by rewrite lookup_delete_ne | done]. }
      rewrite Hq, (sameHashAs_agree _ (wfs w) h q Hq).
      destruct (decide (q ∈ l ∧ _)) as [[Hl Hs]|Hn];
        destruct (decide (q ∈ p :: l ∧ _)) as [[Hl' Hs']|Hn']; try done.
      * destruct Hn'. split; [by right | done].
      * destruct Hn. apply elem_of_cons in Hl' as [?|?]; [done | by split].
Qed.

Lemma reconcileGroup_healthy w g b d :
  basePath g = Some b → size (numberedFiles g) ≠ 0%nat →
  ReadFile (wfs w) b = Ok d → decodes E d = true →
  reconcileGroup E w g
  = foldl (dedupOne E (sha256 E d)) (logf (LogDedupMode (Base b)) w)
          (rangeMap (order E) 2 (numberedFiles g)).*2.
Proof.
  intros Hb Hsz Hrd Hdec. unfold reconcileGroup. rewrite bool_decide_eq_false_2 by done.
  rewrite Hb. unfold isImageFileDamaged, CalculateSHA256. simpl. rewrite Hrd, Hdec. done.
Qed.

Lemma range_values_elem (g : fileGroup) site q :
  q ∈ (rangeMap (order E) site (numberedFiles g)).*2 ↔ q ∈ variants g.
Proof. unfold variants. by rewrite rangeMap_perm. Qed.

(** For a group whose base is a file that decodes, the worker removes the
    numbered files whose SHA-256 digest equals the digest of the base and
    keeps those whose digest differs; the base stays, and no other path
    changes. *)
Lemma reconcileGroup_removes_duplicates w g b d :
  basePath g = Some b → size (numberedFiles g) ≠ 0%nat →
  ReadFile (wfs w) b = Ok d → decodes E d = true →
  b ∉ variants g →
  let w' := reconcileGroup E w g in
  (∀ q dq, q ∈ variants g → ReadFile (wfs w) q = Ok dq →
     sha256 E dq = sha256 E d → wfs w' !! q = None)
  ∧ (∀ q dq, q ∈ variants g → ReadFile (wfs w) q = Ok dq →
     sha256 E dq ≠ sha256 E d → wfs w' !! q = Some (File dq))
  ∧ wfs w' !! b = Some (File d)
  ∧ (∀ q, q ∉ variants g → wfs w' !! q = wfs w !! q).
Proof.
  intros Hb Hsz Hrd Hdec Hbv w'.
  assert (∀ q, wfs w' !! q
            = if decide (q ∈ variants g ∧ sameHashAs (wfs w) (sha256 E d) q = true)
              then None else wfs w !! q) as Hlook.
  { intros q. unfold w'. rewrite (reconcileGroup_healthy w g b d) by done.
    rewrite dedup_fold_lookup. simpl.
    destruct (decide (q ∈ variants g ∧ _)) as [[Hq Hs]|Hn].
    - rewrite decide_True; [done|]. split; [by apply range_values_elem | done].
    - rewrite decide_False; [done|]. intros [Hq Hs]. apply Hn.
      split; [by apply range_values_elem in Hq | done]. }
  repeat split.
  - intros q dq Hq Hrq Hh. rewrite Hlook, decide_True; [done|]. split; [done|].
    unfold sameHashAs. rewrite Hrq. by apply bool_decide_eq_true_2.
  - intros q dq Hq Hrq Hh. rewrite Hlook, decide_False.
    + by apply ReadFile_Ok in Hrq as [_ ?].
    + intros [_ Hs]. unfold sameHashAs in Hs. rewrite Hrq in Hs.
      apply bool_decide_eq_true_1 in Hs. by apply Hh.
  - rewrite Hlook, decide_False; [by apply ReadFile_Ok in Hrd as [_ ?] | by intros [? _]].
  - intros q Hq. rewrite Hlook, decide_False; [done | by intros [? _]].
Qed.
End Dedup.

(** *** A damaged base: the search for a healthy copy *)

Section Repair.
Context (E : Env).

Lemma TrimSuffix_length (s suf : list Z) :
  (length s - length suf ≤ length (TrimSuffix s suf))%nat.
Proof.
  unfold TrimSuffix. destruct (HasSuffix s suf); [|lia].
  rewrite length_take. lia.
Qed.

Lemma candidatePath_ne (b : list (list Z)) (i : Z) : candidatePath b i ≠ b.
Proof.
  unfold candidatePath. intros Heq.
  assert (candidateName b i = Base b) as Hname.
  { rewrite <-Heq at 2. by rewrite Base_snoc. }
  apply (f_equal length) in Hname. unfold candidateName in Hname.
  rewrite !length_app in Hname. pose proof (TrimSuffix_length (Base b) (Ext b)).
  change (length (lit " (")) with 2%nat in Hname.
  change (length (lit ")")) with 1%nat in Hname. lia.
Qed.

Lemma executeRepair_fs b cand i w d0 dk :
  ReadFile (wfs w) b = Ok d0 → isDir (wfs w) (DirOf b) = true →
  cand ≠ b → ReadFile (wfs w) cand = Ok dk →
  wfs (executeRepair b cand i w) = <[b := File dk]> (delete cand (wfs w)).
Proof.
  intros [Hb0 Hb]%ReadFile_Ok Hdir Hne [_ Hc]%ReadFile_Ok.
  unfold executeRepair. simpl. rewrite (Remove_file _ _ _ Hb). simpl.
  rewrite (Rename_file _ cand b dk); simpl.
  - rewrite (delete_delete _ cand b). by rewrite insert_delete_eq.
  - by rewrite lookup_delete_ne.
  - done.
  - done.
  - by rewrite (isDir_delete_file _ _ _ d0).
  - by rewrite lookup_delete_eq.
Qed.

(** [<base> (i)<ext>] is one of the numbered files of the group. *)
Definition present (g : fileGroup) (b : list (list Z)) (i : Z) : Prop :=
  candidatePath b i ∈ (map_to_list (numberedFiles g)).*2.

Lemma foundInMap_present g b i : foundInMap (numberedFiles g) (candidatePath b i) = true ↔ present g b i.
Proof. unfold foundInMap, present. apply bool_decide_eq_true. Qed.

Lemma repairLoop_found g b d0 dk (fuel : nat) (i k : Z) w :
  ReadFile (wfs w) b = Ok d0 → isDir (wfs w) (DirOf b) = true →
  i ≤ k < i + Z.of_nat fuel →
  (∀ j, i ≤ j < k → present g b j ∧ isImageFileDamaged E (wfs w) (candidatePath b j) = true) →
  present g b k → ReadFile (wfs w) (candidatePath b k) = Ok dk → decodes E dk = true →
  wfs (repairLoop E b (numberedFiles g) fuel i w)
  = <[b := File dk]> (delete (candidatePath b k) (wfs w)).
Proof.
  intros Hb Hdir. revert i w Hb Hdir.
  induction fuel as [|fuel IH]; intros i w Hb Hdir Hk Hbefore Hpres Hrd Hdec; [lia|].
  cbn [repairLoop]. destruct (decide (i = k)) as [->|Hik].
  - rewrite (proj2 (foundInMap_present g b k) Hpres). simpl.
    unfold isImageFileDamaged at 1. rewrite Hrd, Hdec. simpl.
    eapply executeRepair_fs; [done | done | apply candidatePath_ne | done].
  - destruct (Hbefore i) as [Hpi Hdi]; [lia|].
    rewrite (proj2 (foundInMap_present g b i) Hpi), Hdi. simpl.
    rewrite (IH (i + 1) (logf _ w)); try done; try lia.
    intros j Hj. apply Hbefore. lia.
Qed.

Lemma repairLoop_unrepairable g b (fuel : nat) (i : Z) w :
  (∀ k, i ≤ k < i + Z.of_nat fuel → present g b k →
        isImageFileDamaged E (wfs w) (candidatePath b k) = false →
        ∃ j, i ≤ j < k ∧ ¬ present g b j) →
  let w' := repairLoop E b (numberedFiles g) fuel i w in
  wfs w' = wfs w ∧ last (wlog w') = Some (LogNoHealthyCopy (Base b)).
Proof.
  revert i w. induction fuel as [|fuel IH]; intros i w Hun; cbn [repairLoop].
  - simpl. split; [done | apply last_snoc].
  - destruct (foundInMap (numberedFiles g) (candidatePath b i)) eqn:Hf; simpl.
    + apply foundInMap_present in Hf.
      destruct (isImageFileDamaged E (wfs w) (candidatePath b i)) eqn:Hd; simpl.
      * destruct (IH (i + 1) (logf (LogCandidateDamaged (candidateName b i)) w)) as [Hfs Hlog];
          [|by split].
        intros k Hk Hpk Hhk. destruct (Hun k) as (j & Hj & Hnj); [lia | done | done |].
        exists j. split; [|done]. destruct (decide (j = i)) as [->|]; [done | lia].
      * destruct (Hun i) as (j & Hj & _); [lia | done | done | lia].
    + split; [done | apply last_snoc].
Qed.
End Repair.

(** *** What a group can touch *)

Section Frame.
Context (E : Env).

(** The files of a group: its base and its numbered files. *)
Definition footprint (g : fileGroup) : list (list (list Z)) :=
  match basePath g with Some b => [b] | None => [] end ++ variants g.

Lemma variants_elem g q : q ∈ variants g ↔ ∃ n, numberedFiles g !! n = Some q.
Proof.
  unfold variants. rewrite list_elem_of_fmap. split.
  - intros [[n q'] [-> Hin]]. exists n. by apply elem_of_map_to_list.
  - intros [n Hn]. exists (n, q). split; [done | by apply elem_of_map_to_list].
Qed.

Lemma footprint_elem g q :
  q ∈ footprint g ↔ basePath g = Some q ∨ q ∈ variants g.
Proof.
  unfold footprint. rewrite elem_of_app. destruct (basePath g) as [b|].
  - rewrite list_elem_of_singleton. split; intros [H|H]; auto; left; congruence.
  - split; [intros [H|H]; [by apply elem_of_nil in H | by right] | intros [?|?]; [done | by right]].
Qed.

Lemma Remove_inv (s s' : gmap (list (list Z)) node) p :
  Remove s p = Ok s' → s' = delete p s.
Proof.
  unfold Remove. destruct (s !! p) as [[|d]|]; [|congruence|done].
  destruct (hasChildren s p); [done | congruence].
Qed.

Lemma Rename_file_inv (s s' : gmap (list (list Z)) node) src dst d :
  s !! src = Some (File d) → Rename s src dst = Ok s' →
  s' = s ∨ s' = <[dst := File d]> (delete src s).
Proof.
  intros Hsrc. unfold Rename. rewrite Hsrc.
  destruct (decide (src = dst)); [intros [= <-]; by left|].
  destruct (decide (dst = [])); [done|]. destruct (negb _); [done|].
  destruct (s !! dst) as [[|?]|]; try done; intros [= <-]; by right.
Qed.

Lemma executeRepair_frame b cand i w dk q :
  ReadFile (wfs w) cand = Ok dk → q ≠ b → q ≠ cand →
  wfs (executeRepair b cand i w) !! q = wfs w !! q.
Proof.
  intros [_ Hc]%ReadFile_Ok Hqb Hqc. unfold executeRepair. simpl.
  destruct (Remove (wfs w) b) as [s1|e] eqn:Hrm.
  - apply Remove_inv in Hrm as ->. simpl.
    destruct (Rename _ cand b) as [s2|e2] eqn:Hren; simpl; [|by rewrite lookup_delete_ne].
    destruct (decide (cand = b)) as [->|Hcb].
    { unfold Rename in Hren. by rewrite lookup_delete_eq in Hren. }
    apply (Rename_file_inv _ _ _ _ dk) in Hren as [->| ->];
      [by rewrite lookup_delete_ne | | by rewrite lookup_delete_ne].
    by rewrite lookup_insert_ne, !lookup_delete_ne.
  - destruct e; simpl; try done.
    destruct (Rename _ cand b) as [s2|e2] eqn:Hren; simpl; [|done].
    apply (Rename_file_inv _ _ _ _ dk) in Hren as [->| ->]; [done | | done].
    by rewrite lookup_insert_ne, lookup_delete_ne.
Qed.

Lemma repairLoop_frame g b fuel i w q :
  q ≠ b → q ∉ variants g →
  wfs (repairLoop E b (numberedFiles g) fuel i w) !! q = wfs w !! q.
Proof.
  intros Hqb Hqv. revert i w. induction fuel as [|fuel IH]; intros i w; cbn [repairLoop]; [done|].
  destruct (foundInMap (numberedFiles g) (candidatePath b i)) eqn:Hf; simpl; [|done].
  destruct (isImageFileDamaged E (wfs w) (candidatePath b i)) eqn:Hd; simpl.
  - by rewrite IH.
  - unfold isImageFileDamaged in Hd.
    destruct (ReadFile (wfs w) (candidatePath b i)) as [dk|] eqn:Hrd; [|done].
    apply (executeRepair_frame _ _ _ _ dk); [done | done |].
    intros ->. apply Hqv. by apply bool_decide_eq_true_1 in Hf.
Qed.

Lemma reconcileGroup_frame w g q :
  q ∉ footprint g → wfs (reconcileGroup E w g) !! q = wfs w !! q.
Proof.
  intros Hq. unfold reconcileGroup. case_bool_decide; [done|].
  destruct (basePath g) as [b|] eqn:Hb; [|done].
  assert (q ≠ b) as Hqb. { intros ->. apply Hq, footprint_elem. by left. }
  assert (q ∉ variants g) as Hqv. { intros Hv. apply Hq, footprint_elem. by right. }
  destruct (isImageFileDamaged E (wfs w) b).
  - unfold findAndExecuteRepair. by rewrite repairLoop_frame.
  - unfold CalculateSHA256. simpl. destruct (ReadFile (wfs w) b) as [d|]; [|done].
    rewrite dedup_fold_lookup. simpl. rewrite decide_False; [done|].
    intros [Hin _]. by apply Hqv, (range_values_elem E g 2).
Qed.
End Frame.

(** *** The groups [scanAndGroupFiles] builds *)

Section Scan.
Context (E : Env).

(** The key [scanAndGroupFiles] files a path under. *)
Definition keyOf (q : list (list Z)) : option (list (list Z)) :=
  if isImageExtension E q then
    match familyRegexp (Base q) with
    | Some (baseName, _, ext) => Some (groupKeyOf E q baseName ext)
    | None => None
    end
  else None.

(** A name without a [ (N)] marker. *)
Definition isBase (q : list (list Z)) : Prop :=
  ∃ baseName ext, familyRegexp (Base q) = Some (baseName, [], ext).

(** Every file of a group was walked and belongs under the key of the
    group; the base has no marker, the numbered files have one. *)
Definition GroupsOf (files : list (list (list Z))) (groups : gmap (list (list Z)) fileGroup) : Prop :=
  ∀ key g, groups !! key = Some g →
    (∀ b, basePath g = Some b → b ∈ files ∧ keyOf b = Some key ∧ isBase b)
    ∧ (∀ n q, numberedFiles g !! n = Some q → q ∈ files ∧ keyOf q = Some key ∧ ¬ isBase q).

Lemma GroupsOf_weaken files p groups : GroupsOf files groups → GroupsOf (files ++ [p]) groups.
Proof.
  intros Hinv key g Hg. destruct (Hinv key g Hg) as [Hb Hn]. split.
  - intros b Hbase. destruct (Hb b Hbase) as (? & ? & ?).
    split; [apply elem_of_app; by left | done].
  - intros n q Hq. destruct (Hn n q Hq) as (? & ? & ?).
    split; [apply elem_of_app; by left | done].
Qed.

Lemma scanFile_GroupsOf files p groups :
  GroupsOf files groups → GroupsOf (files ++ [p]) (scanFile E groups p).
Proof.
  intros Hinv0. pose proof (GroupsOf_weaken files p groups Hinv0) as Hinv.
  assert (p ∈ files ++ [p]) as Hp by (apply elem_of_app; right; by left).
  unfold scanFile. destruct (isImageExtension E p) eqn:Himg; simpl; [|done].
  destruct (familyRegexp (Base p)) as [[[bn ns] ext]|] eqn:Hre; [|done].
  assert (keyOf p = Some (groupKeyOf E p bn ext)) as Hkey.
  { unfold keyOf. by rewrite Himg, Hre. }
  set (kp := groupKeyOf E p bn ext) in *.
  assert (∀ b, basePath (default (mkGroup None ∅) (groups !! kp)) = Some b →
               b ∈ files ++ [p] ∧ keyOf b = Some kp ∧ isBase b) as Hold_b.
  { intros b. destruct (groups !! kp) as [g0|] eqn:Hg0; simpl; [|done].
    by apply (Hinv kp g0). }
  assert (∀ n q, numberedFiles (default (mkGroup None ∅) (groups !! kp)) !! n = Some q →
               q ∈ files ++ [p] ∧ keyOf q = Some kp ∧ ¬ isBase q) as Hold_n.
  { intros n q. destruct (groups !! kp) as [g0|] eqn:Hg0; simpl.
    - by apply (Hinv kp g0).
    - intros Hq. by apply lookup_empty_Some in Hq. }
  case_bool_decide as Hns.
  - subst ns. intros key g. destruct (decide (key = kp)) as [->|Hne].
    + rewrite lookup_insert_eq. intros [= <-]. simpl. split; [|done].
      intros b [= <-]. split; [done|]. split; [done|]. by exists bn, ext.
    + rewrite lookup_insert_ne by done. apply Hinv.
  - destruct (0 <? Atoi ns).
    + intros key g. destruct (decide (key = kp)) as [->|Hne].
      * rewrite lookup_insert_eq. intros [= <-]. simpl. split; [done|].
        intros n q [[<- <-]|[_ Hq]]%lookup_insert_Some; [|by apply (Hold_n n q)].
        split; [done|]. split; [done|]. intros (bn' & ext' & Hre').
        rewrite Hre in Hre'. by inversion Hre'.
      * rewrite lookup_insert_ne by done. apply Hinv.
    + intros key g. destruct (decide (key = kp)) as [->|Hne].
      * rewrite lookup_insert_eq. intros [= <-]. by split.
      * rewrite lookup_insert_ne by done. apply Hinv.
Qed.

Lemma foldl_scanFile_GroupsOf files : GroupsOf files (foldl (scanFile E) ∅ files).
Proof.
  induction files as [|p files IH] using rev_ind.
  - intros key g Hg. simpl in Hg. by apply lookup_empty_Some in Hg.
  - rewrite foldl_app. simpl. by apply scanFile_GroupsOf.
Qed.

Lemma GroupsOf_footprint files groups key g q :
  GroupsOf files groups → groups !! key = Some g → q ∈ footprint g →
  q ∈ files ∧ keyOf q = Some key.
Proof.
  intros Hinv Hg [Hb|Hv]%footprint_elem; destruct (Hinv key g Hg) as [H1 H2].
  - by destruct (H1 q Hb) as (? & ? & ?).
  - apply variants_elem in Hv as [n Hn]. by destruct (H2 n q Hn) as (? & ? & ?).
Qed.


Lemma keyOf_image q key : keyOf q = Some key → isImageExtension E q = true.
Proof. unfold keyOf. by destruct (isImageExtension E q). Qed.
End Scan.

(** *** The whole run *)

Section Process.
Context (E : Env).

(** No candidate [<base> (k)<ext>], [k] in 1..5, is a healthy file of the
    group that the search reaches: before any such [k] a number is missing. *)
Definition Unrepairable (s : gmap (list (list Z)) node) (g : fileGroup) (b : list (list Z)) : Prop :=
  ∀ k, 1 ≤ k ≤ 5 → present g b k →
       isImageFileDamaged E s (candidatePath b k) = false →
       ∃ j, 1 ≤ j < k ∧ ¬ present g b j.

Lemma isImageFileDamaged_agree s1 s2 p :
  s1 !! p = s2 !! p → isImageFileDamaged E s1 p = isImageFileDamaged E s2 p.
Proof. intros H. unfold isImageFileDamaged. by rewrite (ReadFile_agree s1 s2 p H). Qed.

Lemma fold_agree (F : list (list Z) → Prop) (gl : list fileGroup) (w0 w : World) :
  (∀ g, g ∈ gl →
     (∀ q, F q → q ∉ footprint g)
     ∨ (∀ wi, (∀ q, F q → wfs wi !! q = wfs w0 !! q) → wfs (reconcileGroup E wi g) = wfs wi)) →
  (∀ q, F q → wfs w !! q = wfs w0 !! q) →
  ∀ q, F q → wfs (foldl (reconcileGroup E) w gl) !! q = wfs w0 !! q.
Proof.
  revert w. induction gl as [|g gl IH]; intros w Hgl Hw q Hq; simpl; [by apply Hw|].
  apply IH; [intros g' Hg'; apply Hgl; by right | | done].
  intros q' Hq'. destruct (Hgl g) as [Hout|Hid]; [by left | |].
  - rewrite reconcileGroup_frame; [by apply Hw | by apply Hout].
  - rewrite Hid; [by apply Hw | done].
Qed.

Lemma reconcileGroup_unrepairable wi g b :
  basePath g = Some b → isImageFileDamaged E (wfs wi) b = true →
  Unrepairable (wfs wi) g b →
  let w' := reconcileGroup E wi g in
  wfs w' = wfs wi
  ∧ (size (numberedFiles g) ≠ 0%nat → last (wlog w') = Some (LogNoHealthyCopy (Base b))).
Proof.
  intros Hb Hdam Hun. simpl. unfold reconcileGroup. case_bool_decide; [done|].
  rewrite Hb, Hdam. unfold findAndExecuteRepair.
  destruct (repairLoop_unrepairable E g b maxRepairAttempts 1 (logf (LogRepairMode (Base b)) wi))
    as [Hfs Hlog]; [|by split].
  intros k Hk. apply Hun. unfold maxRepairAttempts in Hk. lia.
Qed.
(** C5, as the code has it.  For a group whose base is a file that does not
    decode, the candidates [<base> (k)<ext>] are tried for [k = 1, 2, ...] up
    to 5.  The first candidate that decodes, provided every candidate before
    it is a numbered file of the group (and is damaged), replaces the base:
    the base path then holds its bytes, its own path is gone, every other
    path is as before.  When no candidate is reached that way (a number is
    missing before it, it lies beyond 5, or none decodes), nothing changes
    on disk and the log ends with the line saying no healthy copy was found. *)
Theorem C5_repair_from_consecutive_candidates w g b d0 :
  basePath g = Some b → size (numberedFiles g) ≠ 0%nat →
  ReadFile (wfs w) b = Ok d0 → decodes E d0 = false →
  isDir (wfs w) (DirOf b) = true →
  let w' := reconcileGroup E w g in
  (∀ k dk, 1 ≤ k ≤ 5 →
     (∀ j, 1 ≤ j < k →
        present g b j ∧ isImageFileDamaged E (wfs w) (candidatePath b j) = true) →
     present g b k → ReadFile (wfs w) (candidatePath b k) = Ok dk → decodes E dk = true →
     wfs w' = <[b := File dk]> (delete (candidatePath b k) (wfs w)))
  ∧ (Unrepairable (wfs w) g b →
     wfs w' = wfs w ∧ last (wlog w') = Some (LogNoHealthyCopy (Base b))).
Proof.
  intros Hb Hsz Hrd Hdec Hdir w'.
  assert (isImageFileDamaged E (wfs w) b = true) as Hdam.
  { unfold isImageFileDamaged. by rewrite Hrd, Hdec. }
  split.
  - intros k dk Hk Hbefore Hpres Hrk Hdk. unfold w', reconcileGroup.
    rewrite bool_decide_eq_false_2 by done. rewrite Hb, Hdam.
    unfold findAndExecuteRepair.
    rewrite (repairLoop_found E g b d0 dk maxRepairAttempts 1 k
               (logf (LogRepairMode (Base b)) w)); try done.
    unfold maxRepairAttempts. lia.
  - intros Hun. destruct (reconcileGroup_unrepairable w g b Hb Hdam Hun) as [Hfs Hlog].
    split; [done | by apply Hlog].
Qed.
End Process.

Section Run.
Context (E : Env).

(** The state after the workers have gone through all groups. *)
Definition reconciled (groups : gmap (list (list Z)) fileGroup) (w : World) : World :=
  foldl (reconcileGroup E) w (rangeMap (order E) 1 groups).*2.

Lemma ProcessDirectory_eq root w groups :
  scanAndGroupFiles E (wfs w) root = Ok groups →
  ProcessDirectory E root w
  = (WalkDirFiles (wfs (reconciled groups w)) root, reconciled groups w).
Proof.
  intros Hscan. unfold ProcessDirectory, reconciled. rewrite Hscan.
  case_bool_decide as Hsz; [done|].
  assert (groups = ∅) as -> by (apply map_size_empty_iff; lia).
  assert (rangeMap (order E) 1 (∅ : gmap (list (list Z)) fileGroup) = []) as ->; [|done].
  apply Permutation_nil_r. rewrite rangeMap_perm. by rewrite map_to_list_empty.
Qed.

Lemma reconciled_elem (groups : gmap (list (list Z)) fileGroup) g :
  g ∈ (rangeMap (order E) 1 groups).*2 → ∃ key, groups !! key = Some g.
Proof.
  intros [[key g'] [-> Hin]]%list_elem_of_fmap. exists key. by apply rangeMap_elem in Hin.
Qed.

Lemma scan_GroupsOf (s : gmap (list (list Z)) node) root groups files :
  WalkDirFiles s root = Ok files → scanAndGroupFiles E s root = Ok groups →
  GroupsOf E files groups.
Proof.
  intros Hwalk. unfold scanAndGroupFiles. rewrite Hwalk. intros [= <-].
  apply foldl_scanFile_GroupsOf.
Qed.

(** C10.  On an existing root directory [ProcessDirectory] succeeds and
    returns exactly the files at or below the root after reconciliation.
    Files without an image extension are left as they were, so are the files
    of a group that has no base, and so are the files of a group whose
    damaged base cannot be repaired: all of them are returned with the rest. *)
Theorem C10_returns_every_remaining_file root w :
  isDir (wfs w) root = true →
  ∃ groups files w',
    scanAndGroupFiles E (wfs w) root = Ok groups
    ∧ ProcessDirectory E root w = (Ok files, w')
    ∧ (∀ p, p ∈ files ↔ root `prefix_of` p ∧ ∃ d, wfs w' !! p = Some (File d))
    ∧ (∀ p, isImageExtension E p = false → wfs w' !! p = wfs w !! p)
    ∧ (∀ key g p, groups !! key = Some g → basePath g = None → p ∈ variants g →
         wfs w' !! p = wfs w !! p)
    ∧ (∀ key g b p, groups !! key = Some g → basePath g = Some b →
         isImageFileDamaged E (wfs w) b = true → Unrepairable E (wfs w) g b →
         p ∈ footprint g → wfs w' !! p = wfs w !! p).
Proof.
  intros Hroot.
  destruct (WalkDirFiles (wfs w) root) as [files0|e] eqn:Hwalk.
  2:{ unfold WalkDirFiles, isDir in *. by destruct (Stat (wfs w) root) as [[|?]|]. }
  assert (scanAndGroupFiles E (wfs w) root = Ok (foldl (scanFile E) ∅ files0)) as Hscan.
  { unfold scanAndGroupFiles. by rewrite Hwalk. }
  set (groups := foldl (scanFile E) ∅ files0) in *.
  pose proof (scan_GroupsOf _ _ _ _ Hwalk Hscan) as Hinv.
  set (w' := reconciled groups w).
  assert (∀ key g q, groups !! key = Some g → q ∈ footprint g →
            keyOf E q = Some key ∧ ∃ d, wfs w !! q = Some (File d)) as Hfoot.
  { intros key g q Hg Hq. destruct (GroupsOf_footprint E _ _ _ _ _ Hinv Hg Hq) as [Hin Hkey].
    split; [done|]. by apply (WalkDirFiles_elem _ _ _ _ Hroot Hwalk) in Hin as [_ ?]. }
  assert (isDir (wfs w') root = true) as Hroot'.
  { unfold isDir, Stat in *. destruct (decide (root = [])); [done|].
    enough (wfs w' !! root = wfs w !! root) as -> by done.
    apply (fold_agree E (λ q, q = root) _ w w); [|done|done].
    intros g [key Hg]%reconciled_elem. left. intros q -> Hq.
    destruct (Hfoot key g root Hg Hq) as [_ [d Hd]]. by rewrite Hd in Hroot. }
  destruct (WalkDirFiles (wfs w') root) as [files|e] eqn:Hwalk'.
  2:{ unfold WalkDirFiles, isDir in *. by destruct (Stat (wfs w') root) as [[|?]|]. }
  exists groups, files, w'. split; [done|].
  split; [rewrite (ProcessDirectory_eq root w groups Hscan); fold w'; by rewrite Hwalk'|].
  split; [intros p; by apply WalkDirFiles_elem|].
  split; [|split].
  - intros p Himg. apply (fold_agree E (λ q, q = p) _ w w); [|done|done].
    intros g [key Hg]%reconciled_elem. left. intros q -> Hq.
    destruct (Hfoot key g p Hg Hq) as [Hkey _]. apply keyOf_image in Hkey. congruence.
  - intros key0 g0 p Hg0 Hb0 Hp.
    apply (fold_agree E (λ q, q ∈ variants g0) _ w w); [|done|done].
    intros g [key Hg]%reconciled_elem. destruct (decide (key = key0)) as [->|Hne].
    + right. intros wi _. assert (g = g0) as -> by congruence.
      unfold reconcileGroup. rewrite Hb0. by case_bool_decide.
    + left. intros q Hq0 Hq. destruct (Hfoot key g q Hg Hq) as [Hkey _].
      destruct (Hfoot key0 g0 q Hg0) as [Hkey0 _]; [apply footprint_elem; by right|].
      congruence.
  - intros key0 g0 b p Hg0 Hb0 Hdam Hun Hp.
    apply (fold_agree E (λ q, q ∈ footprint g0) _ w w); [|done|done].
    intros g [key Hg]%reconciled_elem. destruct (decide (key = key0)) as [->|Hne].
    + right. intros wi Hagree. assert (g = g0) as -> by congruence.
      apply (reconcileGroup_unrepairable E wi g0 b); [done | |].
      * rewrite <-Hdam. apply isImageFileDamaged_agree, Hagree, footprint_elem. by left.
      * intros k Hk Hpres Hhealthy. apply (Hun k Hk Hpres). rewrite <-Hhealthy.
        symmetry. apply isImageFileDamaged_agree, Hagree, footprint_elem. by right.
    + left. intros q Hq0 Hq. destruct (Hfoot key g q Hg Hq) as [Hkey _].
      destruct (Hfoot key0 g0 q Hg0 Hq0) as [Hkey0 _]. congruence.
Qed.
End Run.

(** *** The scenario of [cmd/debug/preprocess_debug.go] *)

Definition mkPath (l : list string) : list (list Z) := lit <$> l.

(** A stand-in codec and digest for runs: a file decodes when its first byte
    is 255, and the digest of a file is its content. *)
Definition startsFF (d : list Z) : bool :=
  match d with 255 :: _ => true | _ => false end.

Definition testEnv : Env := mkEnv asciiTables startsFF (λ d, d) inOrder.

Definition testDisk : gmap (list (list Z)) node :=
  addFile (mkPath ["scan"; "repair_me.jpg"]) [1; 2; 3]
  (addFile (mkPath ["scan"; "repair_me (1).jpg"]) [255; 10]
  (addFile (mkPath ["scan"; "deduplicate_me.png"]) [255; 20]
  (addFile (mkPath ["scan"; "deduplicate_me (1).png"]) [255; 20]
  (addFile (mkPath ["scan"; "keep_me.jpg"]) [255; 30]
  (addFile (mkPath ["scan"; "keep_me (1).jpg"]) [255; 31]
  (addFile (mkPath ["scan"; "standalone.txt"]) [7] ∅)))))).

Definition repairGroup : fileGroup :=
  mkGroup (Some (mkPath ["scan"; "repair_me.jpg"]))
          {[ 1 := mkPath ["scan"; "repair_me (1).jpg"] ]}.


(** C5 on the repair scenario: the base takes the bytes of [repair_me (1).jpg]. *)
Lemma C5_repair_me :
  (basePath repairGroup = Some (mkPath ["scan"; "repair_me.jpg"])
   ∧ size (numberedFiles repairGroup) ≠ 0%nat
   ∧ ReadFile testDisk (mkPath ["scan"; "repair_me.jpg"]) = Ok [1; 2; 3]
   ∧ decodes testEnv [1; 2; 3] = false
   ∧ isDir testDisk (mkPath ["scan"]) = true)
  ∧ wfs (reconcileGroup testEnv (mkWorld testDisk []) repairGroup)
    = <[mkPath ["scan"; "repair_me.jpg"] := File [255; 10]]>
        (delete (mkPath ["scan"; "repair_me (1).jpg"]) testDisk).
Proof.
  assert (size (numberedFiles repairGroup) ≠ 0%nat) as Hsz by by vm_compute.
  split; [by repeat split|].
  destruct (C5_repair_from_consecutive_candidates testEnv (mkWorld testDisk []) repairGroup
              (mkPath ["scan"; "repair_me.jpg"]) [1; 2; 3]
              eq_refl Hsz eq_refl eq_refl eq_refl) as [Hfound _].
  apply (Hfound 1 [255; 10]).
  - lia.
  - intros j Hj. lia.
  - vm_compute. by left.
  - by vm_compute.
  - done.
Defined.

(** C5, as stated, fails when the numbering has a gap: the base is damaged,
    [a (2).jpg] decodes, but there is no [a (1).jpg], so the search stops at
    its first step and nothing is repaired. *)
Definition gapDisk : gmap (list (list Z)) node :=
  addFile (mkPath ["scan"; "a.jpg"]) [1; 2; 3]
  (addFile (mkPath ["scan"; "a (2).jpg"]) [255; 10] ∅).

Lemma C5_gap_in_numbering_stops_repair :
  scanAndGroupFiles testEnv gapDisk (mkPath ["scan"])
  = Ok {[ mkPath ["scan"; "a.jpg"] :=
            mkGroup (Some (mkPath ["scan"; "a.jpg"])) {[ 2 := mkPath ["scan"; "a (2).jpg"] ]} ]}
  ∧ isImageFileDamaged testEnv gapDisk (mkPath ["scan"; "a.jpg"]) = true
  ∧ isImageFileDamaged testEnv gapDisk (mkPath ["scan"; "a (2).jpg"]) = false
  ∧ wfs (ProcessDirectory testEnv (mkPath ["scan"]) (mkWorld gapDisk [])).2 = gapDisk.
Proof. repeat split; by vm_compute. Qed.

(** C10 on the same scenario: the text file is among the files returned. *)
Lemma C10_standalone_txt_returned :
  isDir testDisk (mkPath ["scan"]) = true
  ∧ ∃ files w',
      ProcessDirectory testEnv (mkPath ["scan"]) (mkWorld testDisk []) = (Ok files, w')
      ∧ mkPath ["scan"; "standalone.txt"] ∈ files.
Proof.
  split; [done|].
  destruct (C10_returns_every_remaining_file testEnv (mkPath ["scan"]) (mkWorld testDisk [])
              eq_refl) as (groups & files & w' & _ & Hrun & Hfiles & Hother & _).
  exists files, w'. split; [exact Hrun|]. apply Hfiles. split.
  - by exists [lit "standalone.txt"].
  - exists [7]. by rewrite Hother.
Defined.

(** *** One group in the whole run *)

Section RunOnGroup.
Context (E : Env).








End RunOnGroup.






End Preprocessor.

(** ** The ingestor ([pkg/scanner/ingestor.go]) and the store it writes to *)

Module Ingestor.
Import GoText FS GoRuntime.

Definition aggSuffix : gostring := lit "_agg".

(** [models.Series] and [models.Image]; an [ObjectID] and a time are numbers. *)
Record Series := mkSeries {
  sID : Z;
  sName : list Z;
  sPath : list (list Z);
  sImageCount : Z;
  sThumbnail : list Z;
  sCreatedAt : Z;
  sUpdatedAt : Z;
}.

Record Image := mkImage {
  iID : Z;
  iSeriesID : Z;
  iFileHash : list Z;
  iPerceptualHash : list Z;
  iFileName : list Z;
  iFilePath : list (list Z);
  iThumbnail : list Z;
  iCreatedAt : Z;
  iUpdatedAt : Z;
}.

(** The write model [imageWorker] builds:
    [mongo.NewUpdateOneModel().SetFilter(filter).SetUpsert(true).SetUpdate(update)].
    [filter*] are the fields of the filter, [set*] those under [$set],
    [onInsert*] those under [$setOnInsert]. *)
Record ImageUpsert := mkImageUpsert {
  filterSeriesId : Z;
  filterFileName : list Z;
  setFilePath : list (list Z);
  setFileHash : list Z;
  setPerceptualHash : list Z;
  setThumbnail : list Z;
  setUpdatedAt : Z;
  onInsertID : Z;
  onInsertSeriesId : Z;
  onInsertFileName : list Z;
  onInsertCreatedAt : Z;
  upsert : bool;
}.

(** The series write models: the upsert by name of [processAllSeries], and
    the update by id of [metadataUpdateWorker]. *)
Inductive SeriesWrite :=
| SeriesUpsert (name : list Z) (path : list (list Z)) (updatedAt newID createdAt : Z)
| SeriesMeta (id : Z) (imageCount : Z) (thumbnail : list Z) (updatedAt : Z).

(** The two collections, with the unique indexes of [EnsureIndexes]: a series
    per name, an image per [(seriesId, fileName)] and per [filePath].  The
    counters number the round trips to each collection. *)
Record Store := mkStore {
  seriesColl : gmap (list Z) Series;
  imagesColl : gmap (Z * list Z) Image;
  seriesCalls : nat;
  imageCalls : nat;
}.

(** What the ingestor takes from outside the repository: the image codec,
    SHA-256 (a hexadecimal digest is never empty), the perceptual hash and the
    thumbnail of a decodable file, the clock, [primitive.NewObjectID], which
    round trips to the store fail, the order of loops and workers, and the
    configured batch size and store. *)
Record Env := mkEnv {
  decodes : list Z → bool;
  sha256 : list Z → list Z;
  sha256_nonempty : ∀ d, sha256 d ≠ [];
  perceptualHash : list Z → list Z;
  thumbnail : list Z → list Z;
  clock : nat → Z;
  newObjectID : nat → Z;
  seriesDown : nat → bool;
  imagesDown : nat → bool;
  order : Order;
  batchSize : nat;
  storeConfigured : bool;
}.

Record World := mkWorld {
  wfs : gmap (list (list Z)) node;
  wstore : Store;
  wticks : nat;
  wids : nat;
}.

Record imageJob := mkImageJob {
  filePath : list (list Z);
  jobSeries : Series;
}.

(** [imageResult]; an empty [overwrittenPath] is [None]. *)
Record imageResult := mkImageResult {
  writeModel : option ImageUpsert;
  overwrittenPath : option (list (list Z));
}.

Section WithEnv.
Context (E : Env).

Definition setFs (s : gmap (list (list Z)) node) (w : World) : World :=
  mkWorld s (wstore w) (wticks w) (wids w).

Definition setStore (st : Store) (w : World) : World :=
  mkWorld (wfs w) st (wticks w) (wids w).

(** [time.Now()] and [primitive.NewObjectID()]. *)
Definition timeNow (w : World) : Z * World :=
  (clock E (wticks w), mkWorld (wfs w) (wstore w) (S (wticks w)) (wids w)).

Definition freshID (w : World) : Z * World :=
  (newObjectID E (wids w), mkWorld (wfs w) (wstore w) (wticks w) (S (wids w))).

(** One round trip to the series collection: whether it fails. *)
Definition seriesTrip (w : World) : bool * World :=
  let st := wstore w in
  (seriesDown E (seriesCalls st),
   setStore (mkStore (seriesColl st) (imagesColl st) (S (seriesCalls st)) (imageCalls st)) w).

Definition imagesTrip (w : World) : bool * World :=
  let st := wstore w in
  (imagesDown E (imageCalls st),
   setStore (mkStore (seriesColl st) (imagesColl st) (seriesCalls st) (S (imageCalls st))) w).

(** An update with [upsert] on the series collection, filtered by name. *)
Definition upsertSeries (name : list Z) (path : list (list Z)) (updatedAt newID createdAt : Z)
    (st : Store) : Store :=
  let doc :=
    match seriesColl st !! name with
    | Some s => mkSeries (sID s) (sName s) path (sImageCount s) (sThumbnail s)
                         (sCreatedAt s) updatedAt
    | None => mkSeries newID name path 0 [] createdAt updatedAt
    end in
  mkStore (<[name := doc]> (seriesColl st)) (imagesColl st) (seriesCalls st) (imageCalls st).

(** [seriesStore.FindOrCreateByName]: the update with upsert, then the read
    of the document. *)
Definition FindOrCreateByName (seriesName : list Z) (seriesPath : list (list Z)) (w : World)
  : result Series * World :=
  let '(updatedAt, w) := timeNow w in
  let '(newID, w) := freshID w in
  let '(createdAt, w) := timeNow w in
  let '(down, w) := seriesTrip w in
  if down then (Err EINVAL, w) else
  let w := setStore (upsertSeries seriesName seriesPath updatedAt newID createdAt (wstore w)) w in
  let '(down, w) := seriesTrip w in
  if down then (Err EINVAL, w) else
  match seriesColl (wstore w) !! seriesName with
  | Some s => (Ok s, w)
  | None => (Err ENOENT, w)
  end.

(** [imageWorker], the body of its loop for one job: the results it sends. *)
Definition imageWorkerJob (w : World) (job : imageJob) : list imageResult * World :=
  let fileName := Base (filePath job) in
  match ReadFile (wfs w) (filePath job) with
  | Err _ => ([], w)
  | Ok fileBytes =>
      let fileHash := sha256 E fileBytes in
      if negb (decodes E fileBytes) then
        match Remove (wfs w) (filePath job) with
        | Ok s' => ([], setFs s' w)
        | Err _ => ([], w)
        end
      else
        let pHash := perceptualHash E fileBytes in
        let thumb := thumbnail E fileBytes in
        if bool_decide (fileHash = []) then ([], w) else
        let '(found, w) :=
          FindOrCreateByName (Base (DirOf (filePath job))) (filePath job) w in
        match found with
        | Err _ => ([], w)
        | Ok series =>
            let '(updatedAt, w) := timeNow w in
            let '(newID, w) := freshID w in
            let '(createdAt, w) := timeNow w in
            let model :=
              mkImageUpsert (sID series) fileName
                            (filePath job) fileHash pHash thumb updatedAt
                            newID (sID series) fileName createdAt
                            true in
            ([mkImageResult (Some model) None], w)
        end
  end.

(** The workers of [processAllImages]: the jobs are taken in the given
    order, each as a whole, and what is sent goes to the results. *)
Definition workerStep (st : list imageResult * World) (job : imageJob)
  : list imageResult * World :=
  let '(results, w) := st in
  let '(rs, w') := imageWorkerJob w job in (results ++ rs, w').

Definition imageWorker (w : World) (jobs : list imageJob) : list imageResult * World :=
  foldl workerStep ([], w) jobs.

(** An update with [upsert] on the image collection.  The unique index on
    [filePath] refuses a write that would give a second document the path. *)
Definition pathTaken (st : Store) (key : Z * list Z) (p : list (list Z)) : bool :=
  existsb (λ kv, bool_decide (kv.1 ≠ key ∧ iFilePath kv.2 = p)) (map_to_list (imagesColl st)).

Definition applyImageUpsert (st : Store) (u : ImageUpsert) : Store :=
  let key := (filterSeriesId u, filterFileName u) in
  if pathTaken st key (setFilePath u) then st else
  match imagesColl st !! key with
  | Some img =>
      let doc := mkImage (iID img) (iSeriesID img) (setFileHash u) (setPerceptualHash u)
                         (iFileName img) (setFilePath u) (setThumbnail u)
                         (iCreatedAt img) (setUpdatedAt u) in
      mkStore (seriesColl st) (<[key := doc]> (imagesColl st)) (seriesCalls st) (imageCalls st)
  | None =>
      if upsert u then
        let doc := mkImage (onInsertID u) (onInsertSeriesId u) (setFileHash u)
                           (setPerceptualHash u) (onInsertFileName u) (setFilePath u)
                           (setThumbnail u) (onInsertCreatedAt u) (setUpdatedAt u) in
        mkStore (seriesColl st) (<[key := doc]> (imagesColl st)) (seriesCalls st) (imageCalls st)
      else st
  end.

(** [imageStore.BulkWrite]; [false] when it returns an error. *)
Definition imagesBulkWrite (models : list ImageUpsert) (w : World) : bool * World :=
  match models with
  | [] => (true, w)
  | _ =>
      let '(down, w) := imagesTrip w in
      if down then (false, w)
      else (true, setStore (foldl applyImageUpsert (wstore w) models) w)
  end.

(** The collector of [processAllImages]. *)
Record Collector := mkCollector {
  writesBatch : list ImageUpsert;
  allOverwritten : list (list (list Z));
}.

Definition collectOne (st : Collector * World) (res : imageResult) : Collector * World :=
  let '(c, w) := st in
  let batch :=
    match writeModel res with Some m => writesBatch c ++ [m] | None => writesBatch c end in
  let overwritten :=
    match overwrittenPath res with
    | Some p => allOverwritten c ++ [p]
    | None => allOverwritten c
    end in
  if bool_decide (batchSize E ≤ length batch)%nat
  then (mkCollector [] overwritten, (imagesBulkWrite batch w).2)
  else (mkCollector batch overwritten, w).

Definition collect (results : list imageResult) (w : World) : list (list (list Z)) * World :=
  let '(c, w) := foldl collectOne (mkCollector [] [], w) results in
  (allOverwritten c, (imagesBulkWrite (writesBatch c) w).2).

(** *** The phases of [Sync] *)

Definition seriesNameOf (p : path) : list Z := TrimSuffix (Base p) aggSuffix.

Definition collectFinalSeriesPaths (changelog : gmap (list (list Z)) (list (list Z)))
    (w : World) : list (list (list Z)) :=
  let pathSet : gset (list (list Z)) :=
    foldl (λ pathSet kv,
             let newPath := kv.2 in
             match Stat (wfs w) newPath with
             | Ok Dir =>
                 if HasSuffix (Base newPath) aggSuffix then
                   match ReadDir (wfs w) newPath with
                   | Ok subEntries =>
                       foldl (λ ps e, if IsDir e then {[newPath ++ [Name e]]} ∪ ps else ps)
                             pathSet subEntries
                   | Err _ => pathSet
                   end
                 else {[newPath]} ∪ pathSet
             | _ => pathSet
             end)
          ∅ (rangeMap (order E) 1 changelog) in
  permute (order E) 2 _ (elements pathSet).

Definition applySeriesWrite (st : Store) (wr : SeriesWrite) : Store :=
  match wr with
  | SeriesUpsert name p updatedAt newID createdAt => upsertSeries name p updatedAt newID createdAt st
  | SeriesMeta id count thumb updatedAt =>
      mkStore
        ((λ s, if bool_decide (sID s = id)
               then mkSeries (sID s) (sName s) (sPath s) count thumb (sCreatedAt s) updatedAt
               else s) <$> seriesColl st)
        (imagesColl st) (seriesCalls st) (imageCalls st)
  end.

Definition seriesBulkWrite (models : list SeriesWrite) (w : World) : bool * World :=
  match models with
  | [] => (true, w)
  | _ =>
      let '(down, w) := seriesTrip w in
      if down then (false, w)
      else (true, setStore (foldl applySeriesWrite (wstore w) models) w)
  end.

Definition seriesUpsertModel (st : list SeriesWrite * World) (p : list (list Z))
  : list SeriesWrite * World :=
  let '(models, w) := st in
  let '(updatedAt, w) := timeNow w in
  let '(newID, w) := freshID w in
  let '(createdAt, w) := timeNow w in
  (models ++ [SeriesUpsert (seriesNameOf p) p updatedAt newID createdAt], w).

(** [processAllSeries]: the cache from path to series, or an error. *)
Definition processAllSeries (seriesPaths : list (list (list Z))) (w : World)
  : option (gmap (list (list Z)) Series) * World :=
  match seriesPaths with
  | [] => (Some ∅, w)
  | _ =>
      let '(seriesWrites, w) := foldl seriesUpsertModel ([], w) seriesPaths in
      let '(ok, w) := seriesBulkWrite seriesWrites w in
      if negb ok then (None, w) else
      let '(down, w) := seriesTrip w in
      if down then (None, w) else
      let cache :=
        foldl (λ cache p,
                 match seriesColl (wstore w) !! seriesNameOf p with
                 | Some s =>
                     <[p := mkSeries (sID s) (sName s) p (sImageCount s) (sThumbnail s)
                                     (sCreatedAt s) (sUpdatedAt s)]> cache
                 | None => cache
                 end)
              ∅ seriesPaths in
      (Some cache, w)
  end.

Definition fileNames (entries : list DirEntry) : list (list Z) :=
  Name <$> filter (λ e, IsDir e = false) entries.

Definition jobsOf (seriesCache : gmap (list (list Z)) Series) (w : World)
    (seriesPath : list (list Z)) : list imageJob :=
  match seriesCache !! seriesPath with
  | None => []
  | Some series =>
      let files := match ReadDir (wfs w) seriesPath with Ok es => es | Err _ => [] end in
      (λ name, mkImageJob (seriesPath ++ [name]) series) <$> fileNames files
  end.

(** [processAllImages]: the paths reported as overwritten. *)
Definition processAllImages (seriesPaths : list (list (list Z)))
    (seriesCache : gmap (list (list Z)) Series) (w : World)
  : list (list (list Z)) * World :=
  let jobs := permute (order E) 3 _ (seriesPaths ≫= jobsOf seriesCache w) in
  let '(results, w) := imageWorker w jobs in
  collect (permute (order E) 4 _ results) w.

Definition imagesOfSeries (st : Store) (id : Z) : list Image :=
  filter (λ img, iSeriesID img = id) (map_to_list (imagesColl st)).*2.

Definition firstByFileName (imgs : list Image) : option Image :=
  head (merge_sort (λ a b, strLeb (iFileName a) (iFileName b)) imgs).

(** [metadataUpdateWorker], the body of its loop for one series. *)
Definition metadataModel (st : list SeriesWrite * World) (series : Series)
  : list SeriesWrite * World :=
  let '(models, w) := st in
  let '(down, w) := imagesTrip w in
  if down then (models, w) else
  let count := Z.of_nat (length (imagesOfSeries (wstore w) (sID series))) in
  let '(down, w) := imagesTrip w in
  let firstImage :=
    if down then None else firstByFileName (imagesOfSeries (wstore w) (sID series)) in
  let thumb := match firstImage with Some img => iThumbnail img | None => [] end in
  if bool_decide (sImageCount series ≠ count ∨ sThumbnail series ≠ thumb) then
    let '(updatedAt, w) := timeNow w in
    (models ++ [SeriesMeta (sID series) count thumb updatedAt], w)
  else (models, w).

Definition updateAllSeriesMetadata (seriesCache : gmap (list (list Z)) Series) (w : World)
  : bool * World :=
  let '(writes, w) :=
    foldl metadataModel ([], w) (rangeMap (order E) 5 seriesCache).*2 in
  seriesBulkWrite writes w.

(** [Sync]: the overwritten files, or [None] when Go returns an error. *)
Definition Sync (finalLibraryPath : path) (createdSeries processedFileNames : list (list Z))
    (changelog : gmap (list (list Z)) (list (list Z))) (w : World)
  : option (list (list (list Z))) * World :=
  if negb (storeConfigured E) then (Some [], w) else
  let seriesPathsToProcess := collectFinalSeriesPaths changelog w in
  let '(cache, w) := processAllSeries seriesPathsToProcess w in
  match cache with
  | None => (None, w)
  | Some seriesCache =>
      let '(overwrittenFiles, w) := processAllImages seriesPathsToProcess seriesCache w in
      let '(_, w) := updateAllSeriesMetadata seriesCache w in
      (Some overwrittenFiles, w)
  end.

End WithEnv.

(** *** The image worker *)

Section Worker.
Context (E : Env).

Lemma FindOrCreateByName_fs name p w :
  wfs (FindOrCreateByName E name p w).2 = wfs w.
Proof.
  unfold FindOrCreateByName, timeNow, freshID, seriesTrip, setStore. simpl.
  destruct (seriesDown E (seriesCalls (wstore w))); [done|]. simpl.
  destruct (seriesDown E _); [done|]. simpl.
  by destruct (_ !! name).
Qed.

Lemma imageWorkerJob_read_error w job e :
  ReadFile (wfs w) (filePath job) = Err e → imageWorkerJob E w job = ([], w).
Proof. intros H. unfold imageWorkerJob. by rewrite H. Qed.

Lemma imageWorkerJob_damaged w job d :
  ReadFile (wfs w) (filePath job) = Ok d → decodes E d = false →
  imageWorkerJob E w job = ([], setFs (delete (filePath job) (wfs w)) w).
Proof.
  intros H Hd. unfold imageWorkerJob. rewrite H, Hd. simpl.
  apply ReadFile_Ok in H as [_ H]. by rewrite (Remove_file _ _ _ H).
Qed.

Lemma imageWorkerJob_decoded w job d :
  ReadFile (wfs w) (filePath job) = Ok d → decodes E d = true →
  let found := FindOrCreateByName E (Base (DirOf (filePath job))) (filePath job) w in
  wfs (imageWorkerJob E w job).2 = wfs w ∧
  match found.1 with
  | Ok series =>
      ∃ updatedAt newID createdAt,
        (imageWorkerJob E w job).1 =
          [mkImageResult
             (Some (mkImageUpsert (sID series) (Base (filePath job))
                                  (filePath job) (sha256 E d) (perceptualHash E d)
                                  (thumbnail E d) updatedAt
                                  newID (sID series) (Base (filePath job)) createdAt
                                  true))
             None]
  | Err _ => (imageWorkerJob E w job).1 = []
  end.
Proof.
  intros H Hd found. unfold imageWorkerJob. rewrite H, Hd. simpl.
  rewrite bool_decide_eq_false_2 by apply sha256_nonempty.
  pose proof (FindOrCreateByName_fs (Base (DirOf (filePath job))) (filePath job) w) as Hfs.
  fold found in Hfs |- *. destruct found as [[series|e] w1]; simpl in *; [|done].
  split; [done|]. by eexists _, _, _.
Qed.

Lemma imageWorkerJob_fs w job :
  wfs (imageWorkerJob E w job).2 = wfs w ∨
  wfs (imageWorkerJob E w job).2 = delete (filePath job) (wfs w).
Proof.
  destruct (ReadFile (wfs w) (filePath job)) as [d|e] eqn:H.
  - destruct (decodes E d) eqn:Hd.
    + left. by apply (imageWorkerJob_decoded w job d).
    + right. by rewrite (imageWorkerJob_damaged w job d).
  - left. by rewrite (imageWorkerJob_read_error w job e).
Qed.

Lemma imageWorker_acc acc w jobs :
  foldl (workerStep E) (acc, w) jobs =
  (acc ++ (imageWorker E w jobs).1, (imageWorker E w jobs).2).
Proof.
  unfold imageWorker.
  revert acc w. induction jobs as [|job jobs IH]; intros acc w; simpl.
  - by rewrite app_nil_r.
  - destruct (imageWorkerJob E w job) as [rs w'] eqn:Hj. simpl.
    rewrite (IH (acc ++ rs)), (IH rs). simpl. by rewrite app_assoc.
Qed.

Lemma imageWorker_cons w job jobs :
  imageWorker E w (job :: jobs) =
  ((imageWorkerJob E w job).1 ++ (imageWorker E (imageWorkerJob E w job).2 jobs).1,
   (imageWorker E (imageWorkerJob E w job).2 jobs).2).
Proof.
  unfold imageWorker at 1. simpl.
  destruct (imageWorkerJob E w job) as [rs w']. simpl. apply imageWorker_acc.
Qed.

Lemma imageWorker_app w pre post :
  imageWorker E w (pre ++ post) =
  ((imageWorker E w pre).1 ++ (imageWorker E (imageWorker E w pre).2 post).1,
   (imageWorker E (imageWorker E w pre).2 post).2).
Proof.
  revert w. induction pre as [|job pre IH]; intros w.
  - simpl. by destruct (imageWorker E w post).
  - simpl. rewrite !imageWorker_cons, IH. simpl. by rewrite app_assoc.
Qed.

Lemma imageWorker_frame w jobs p :
  p ∉ filePath <$> jobs → wfs (imageWorker E w jobs).2 !! p = wfs w !! p.
Proof.
  revert w. induction jobs as [|job jobs IH]; intros w Hp; [done|].
  rewrite imageWorker_cons. simpl. rewrite fmap_cons, not_elem_of_cons in Hp.
  destruct Hp as [Hne Hp]. rewrite IH by done.
  destruct (imageWorkerJob_fs w job) as [-> | ->]; [done|].
  by rewrite lookup_delete_ne.
Qed.

Lemma imageWorker_gone w jobs p :
  wfs w !! p = None → wfs (imageWorker E w jobs).2 !! p = None.
Proof.
  revert w. induction jobs as [|job jobs IH]; intros w Hp; [done|].
  rewrite imageWorker_cons. simpl. apply IH.
  destruct (imageWorkerJob_fs w job) as [-> | ->]; [done|].
  by apply lookup_delete_None; right.
Qed.

(** C8.  [imageWorker] on a batch [pre ++ job :: post] of jobs on distinct
    files.  It never aborts the batch: its results are those of [pre], of [job]
    and of [post], whatever happens to [job].  A file that cannot be read
    yields no write and changes nothing.  A file that does not decode is
    deleted, yields no write and is absent at the end of the batch.  A file
    that decodes stays on the disk and, when the store finds or creates the
    series named after its directory, yields exactly one upsert, filtered by
    that series' id and the file name, carrying the path, the SHA-256, the
    perceptual hash and the thumbnail of the file; when the store fails there,
    the file yields no write and the batch goes on. *)
Theorem C8_imageWorker_skips_or_upserts (w : World) (pre post : list imageJob) (job : imageJob) :
  NoDup (filePath <$> pre ++ job :: post) →
  let w1 := (imageWorker E w pre).2 in
  let rj := (imageWorkerJob E w1 job).1 in
  let wj := (imageWorkerJob E w1 job).2 in
  let out := imageWorker E w (pre ++ job :: post) in
  (out.1 = (imageWorker E w pre).1 ++ rj ++ (imageWorker E wj post).1
   ∧ out.2 = (imageWorker E wj post).2)
  ∧ (∀ e, ReadFile (wfs w) (filePath job) = Err e → rj = [] ∧ wj = w1)
  ∧ (∀ d, ReadFile (wfs w) (filePath job) = Ok d → decodes E d = false →
       rj = [] ∧ wfs wj = delete (filePath job) (wfs w1) ∧ wstore wj = wstore w1
       ∧ wfs out.2 !! filePath job = None)
  ∧ (∀ d, ReadFile (wfs w) (filePath job) = Ok d → decodes E d = true →
       wfs out.2 !! filePath job = Some (File d) ∧
       match (FindOrCreateByName E (Base (DirOf (filePath job))) (filePath job) w1).1 with
       | Ok series =>
           ∃ u, rj = [mkImageResult (Some u) None]
                ∧ filterSeriesId u = sID series ∧ filterFileName u = Base (filePath job)
                ∧ upsert u = true
                ∧ setFilePath u = filePath job ∧ setFileHash u = sha256 E d
                ∧ setPerceptualHash u = perceptualHash E d ∧ setThumbnail u = thumbnail E d
                ∧ onInsertSeriesId u = sID series ∧ onInsertFileName u = Base (filePath job)
       | Err _ => rj = []
       end).
Proof.
  intros Hnd w1 rj wj out.
  rewrite fmap_app, fmap_cons in Hnd.
  apply NoDup_app in Hnd as (_ & Hpre & Hnd).
  apply NoDup_cons in Hnd as [Hpost _].
  assert (Hpre' : filePath job ∉ filePath <$> pre).
  { intros Hin. apply (Hpre _ Hin). left. }
  assert (Hsame : ReadFile (wfs w1) (filePath job) = ReadFile (wfs w) (filePath job)).
  { apply ReadFile_agree. by apply imageWorker_frame. }
  assert (Hout : out = ((imageWorker E w pre).1 ++ rj ++ (imageWorker E wj post).1,
                        (imageWorker E wj post).2)).
  { unfold out. by rewrite imageWorker_app, imageWorker_cons. }
  split; [by rewrite Hout|]. split; [|split].
  - intros e He. rewrite <-Hsame in He. unfold rj, wj.
    by rewrite (imageWorkerJob_read_error _ _ _ He).
  - intros d Hd Hbad. rewrite <-Hsame in Hd. unfold rj, wj. rewrite Hout.
    rewrite (imageWorkerJob_damaged _ _ _ Hd Hbad). simpl.
    repeat split. apply imageWorker_gone. unfold wj.
    rewrite (imageWorkerJob_damaged _ _ _ Hd Hbad). simpl. apply lookup_delete_eq.
  - intros d Hd Hgood. pose proof Hd as Hd0. rewrite <-Hsame in Hd.
    destruct (imageWorkerJob_decoded _ _ _ Hd Hgood) as [Hfs Hres].
    split.
    + rewrite Hout. simpl. rewrite imageWorker_frame by done. unfold wj. rewrite Hfs.
      by apply ReadFile_Ok in Hd as [_ ?].
    + simpl in Hres. destruct (FindOrCreateByName E _ _ w1).1 as [series|e]; [|done].
      destruct Hres as (t1 & i & t2 & Hres). eexists. split; [exact Hres|]. done.
Qed.
End Worker.

(** *** The series store *)

Section Store.
Context (E : Env).


Lemma FindOrCreateByName_down name p w :
  seriesDown E (seriesCalls (wstore w)) = true →
  (FindOrCreateByName E name p w).1 = Err EINVAL.
Proof.
  intros H1.
  unfold FindOrCreateByName, timeNow, freshID, seriesTrip, setStore, upsertSeries. simpl.
  by rewrite H1.
Qed.

(** *** The overwritten files *)

Lemma imageWorkerJob_overwrittenPath w job r :
  r ∈ (imageWorkerJob E w job).1 → overwrittenPath r = None.
Proof.
  unfold imageWorkerJob.
  destruct (ReadFile (wfs w) (filePath job)) as [d|e]; [|by intros ?%elem_of_nil].
  destruct (decodes E d); simpl.
  - destruct (bool_decide _); [by intros ?%elem_of_nil|].
    destruct (FindOrCreateByName E _ _ w) as [[series|e] w1]; [|by intros ?%elem_of_nil].
    by intros ->%list_elem_of_singleton.
  - by destruct (Remove _ _); intros ?%elem_of_nil.
Qed.

Lemma imageWorker_overwrittenPath w jobs r :
  r ∈ (imageWorker E w jobs).1 → overwrittenPath r = None.
Proof.
  revert w. induction jobs as [|job jobs IH]; intros w.
  - by intros ?%elem_of_nil.
  - rewrite imageWorker_cons. simpl. intros [Hr|Hr]%elem_of_app.
    + by apply (imageWorkerJob_overwrittenPath w job).
    + by apply (IH _ Hr).
Qed.

Lemma collectOne_none c w res :
  allOverwritten c = [] → overwrittenPath res = None →
  allOverwritten (collectOne E (c, w) res).1 = [].
Proof.
  intros Hc Hr. unfold collectOne. rewrite Hr, Hc.
  by destruct (bool_decide _).
Qed.

Lemma collect_none results w :
  (∀ r, r ∈ results → overwrittenPath r = None) → (collect E results w).1 = [].
Proof.
  intros Hall. unfold collect.
  assert (Hinv : ∀ c w0, allOverwritten c = [] →
            allOverwritten (foldl (collectOne E) (c, w0) results).1 = []).
  { induction results as [|r results IH]; intros c w0 Hc; [done|]. cbn [foldl].
    destruct (collectOne E (c, w0) r) as [c' w'] eqn:Hstep.
    apply IH.
    - intros r' Hr'. apply Hall. by right.
    - change c' with (c', w').1. rewrite <-Hstep. apply collectOne_none; [done|].
      apply Hall. by left. }
  specialize (Hinv (mkCollector [] []) w eq_refl).
  by destruct (foldl (collectOne E) _ results) as [c w'].
Qed.

Lemma processAllImages_none seriesPaths seriesCache w :
  (processAllImages E seriesPaths seriesCache w).1 = [].
Proof.
  unfold processAllImages.
  destruct (imageWorker E w _) as [results w'] eqn:Hw.
  apply collect_none. intros r Hr.
  rewrite (permute_perm (order E) 4 _ results) in Hr.
  apply (imageWorker_overwrittenPath w (permute (order E) 3 _ (seriesPaths ≫= jobsOf seriesCache w))).
  by rewrite Hw.
Qed.

Lemma Sync_none lib created processed changelog w :
  (Sync E lib created processed changelog w).1 = None
  ∨ (Sync E lib created processed changelog w).1 = Some [].
Proof.
  unfold Sync. destruct (storeConfigured E); simpl; [|by right].
  destruct (processAllSeries E _ w) as [[cache|] w1]; [|by left].
  pose proof (processAllImages_none (collectFinalSeriesPaths E changelog w) cache w1) as H.
  destruct (processAllImages E _ cache w1) as [ov w2]. simpl in H. subst ov.
  destruct (updateAllSeriesMetadata E cache w2). by right.
Qed.
End Store.

(** *** A replaced file whose record is stale *)

Definition mkPath (l : list string) : list (list Z) := lit <$> l.

(** A stand-in codec and digest for runs: a file decodes when its first byte
    is 255, its digest is its content after a tag, and its perceptual hash and
    thumbnail are its content. *)
Definition startsFF (d : list Z) : bool :=
  match d with 255 :: _ => true | _ => false end.

Definition digest (d : list Z) : list Z := lit "sha256:" ++ d.

Lemma digest_nonempty d : digest d ≠ [].
Proof. done. Qed.

Definition syncEnv : Env :=
  mkEnv startsFF digest digest_nonempty (λ d, d) (λ d, d)
        (λ n, 1700000000 + Z.of_nat n) (λ n, 100 + Z.of_nat n)
        (λ _, false) (λ _, false) inOrder 100 true.

Definition seriesDir : list (list Z) := mkPath ["final"; "S"; "SeriesToOverwrite"].
Definition imagePath : list (list Z) := seriesDir ++ [lit "image.jpg"].

Definition originalContent : list Z := [255; 1].
Definition newContent : list Z := [255; 2].

Definition catalog : Store :=
  mkStore
    {[ lit "SeriesToOverwrite" :=
         mkSeries 1 (lit "SeriesToOverwrite") seriesDir 1 originalContent 0 0 ]}
    {[ (1, lit "image.jpg") :=
         mkImage 2 1 (digest originalContent) originalContent (lit "image.jpg") imagePath
                 originalContent 0 0 ]}
    0 0.

Definition overwrittenDisk : gmap (list (list Z)) node :=
  addFile imagePath newContent ∅.

Definition moved : gmap (list (list Z)) (list (list Z)) :=
  {[ mkPath ["staging"; "SeriesToOverwrite"] := seriesDir ]}.

Definition syncRun : option (list (list (list Z))) * World :=
  Sync syncEnv (mkPath ["final"]) [lit "SeriesToOverwrite"] [lit "image.jpg"] moved
       (mkWorld overwrittenDisk catalog 0 0).

(** C2.  [Sync] never reports an overwritten file: whatever the disk, the
    catalog and the changelog, it returns an error or the empty list, because
    [imageWorker] sends every result with an empty [overwrittenPath].  On the
    scenario of the reconciler's debug program — the catalog holds
    [SeriesToOverwrite/image.jpg] under the hash of its original content, and
    the file on the disk has been replaced — [Sync] rewrites the record with
    the hash of the new content and returns the empty list. *)
Theorem C2_overwritten_files_never_reported :
  (∀ E lib created processed changelog w,
     (Sync E lib created processed changelog w).1 = None
     ∨ (Sync E lib created processed changelog w).1 = Some [])
  ∧ (iFileHash <$> imagesColl catalog !! (1, lit "image.jpg") = Some (digest originalContent)
     ∧ ReadFile overwrittenDisk imagePath = Ok newContent
     ∧ syncRun.1 = Some []
     ∧ iFileHash <$> imagesColl (wstore syncRun.2) !! (1, lit "image.jpg")
       = Some (digest newContent)).
Proof.
  split; [intros; apply Sync_none|]. repeat split; by vm_compute.
Qed.

(** *** A damaged file next to a healthy one *)

Definition alphaDir : list (list Z) := mkPath ["final"; "A"; "Alpha"].

Definition alphaSeries : Series :=
  mkSeries 100 (lit "Alpha") alphaDir 0 [] 1700000001 1700000000.

Definition badJob : imageJob := mkImageJob (alphaDir ++ [lit "bad.jpg"]) alphaSeries.
Definition goodJob : imageJob := mkImageJob (alphaDir ++ [lit "good.jpg"]) alphaSeries.

Definition alphaWorld : World :=
  mkWorld (addFile (filePath badJob) [1; 2; 3] (addFile (filePath goodJob) [255; 9] ∅))
          (mkStore ∅ ∅ 0 0) 0 0.

(** C8 on two jobs: the damaged file is skipped, and the healthy file after
    it yields the only write of the batch, an upsert under its file name. *)
Lemma C8_damaged_file_then_healthy_file :
  NoDup (filePath <$> [badJob] ++ goodJob :: [])
  ∧ ∃ u, (imageWorker syncEnv alphaWorld ([badJob] ++ goodJob :: [])).1
           = [mkImageResult (Some u) None]
         ∧ filterFileName u = lit "good.jpg"
         ∧ setFilePath u = filePath goodJob
         ∧ upsert u = true.
Proof.
  assert (Hnd : NoDup (filePath <$> [badJob] ++ goodJob :: [])).
  { apply (bool_decide_unpack _). by vm_compute. }
  split; [exact Hnd|].
  destruct (C8_imageWorker_skips_or_upserts syncEnv alphaWorld [badJob] [] goodJob Hnd)
    as ((Hout & _) & _ & _ & Hgood).
  destruct (Hgood [255; 9] eq_refl eq_refl) as [_ Hup].
  destruct (FindOrCreateByName syncEnv _ _ _).1 as [series|e] eqn:Hfound in Hup;
    [|by vm_compute in Hfound].
  destruct Hup as (u & Hu & _ & Hname & Hups & Hpath & _).
  exists u. rewrite Hout, Hu, Hname, Hpath. repeat split. exact Hups.
Defined.


(** C8, as stated, fails when the store cannot find or create the series:
    [good.jpg] is read and decodes, yet the worker sends nothing for it and
    leaves it on the disk. *)
Definition storeDownEnv : Env :=
  mkEnv startsFF digest digest_nonempty (λ d, d) (λ d, d)
        (λ n, 1700000000 + Z.of_nat n) (λ n, 100 + Z.of_nat n)
        (λ _, true) (λ _, false) inOrder 100 true.

Lemma C8_series_lookup_fails_no_upsert :
  ReadFile (wfs alphaWorld) (filePath goodJob) = Ok [255; 9]
  ∧ decodes storeDownEnv [255; 9] = true
  ∧ (imageWorker storeDownEnv alphaWorld [goodJob]).1 = []
  ∧ wfs (imageWorker storeDownEnv alphaWorld [goodJob]).2 !! filePath goodJob
    = Some (File [255; 9]).
Proof. repeat split; by vm_compute. Qed.

End Ingestor.
